(** * Session protocol engine of the ConversationRelay / Llama bridge

    A shallow embedding of the call-session registry, the request builder
    and stream bookkeeping of the completion service, the voice-text
    normalizer and the message router, followed by the properties that
    were checked against them. *)

From Stdlib Require Import NArith Lia Ascii String.
From stdpp Require Import gmap strings list fin_maps.

Local Open Scope string_scope.
Local Open Scope nat_scope.
Local Open Scope list_scope.

(** ** Conversation data (types/websocket.types.ts) *)

Inductive Role := user | assistant | system.

#[global] Instance Role_eq_dec : EqDecision Role.
Proof. solve_decision. Defined.

(** One history entry: [{ role, content }]. *)
Record Message := mkMessage { role : Role; content : string }.

#[global] Instance Message_eq_dec : EqDecision Message.
Proof. solve_decision. Defined.

(** [Array.prototype.slice(-n)]: the last [n] elements, the whole array
    when it is shorter. *)
Definition slice_last {A} (n : nat) (l : list A) : list A :=
  drop (length l - n) l.

(** ** Session registry (services/conversation/session.manager.ts) *)

Module SessionManager.

Record Session := mkSession {
  callSid : string;
  from : string;
  to : string;
  startTime : N;
  conversationHistory : list Message
}.

(** The [Map<string, Session>] held by the singleton. *)
Abbreviation Sessions := (gmap string Session).

(** [createSession]: builds a fresh session and stores it with
    [Map.set]; [now] stands for [new Date()]. *)
Definition createSession (now : N) (sid f t : string) (ss : Sessions)
  : Session * Sessions :=
  let session := mkSession sid f t now [] in
  (session, <[sid := session]> ss).

Definition getSession (sid : string) (ss : Sessions) : option Session :=
  ss !! sid.

(** [addMessage]: push, then keep the last 20 entries when the array
    grew past 20.  The session object is shared with the map, so the
    update is visible through every reference to it. *)
Definition push_trim (m : Message) (h : list Message) : list Message :=
  let h' := h ++ [m] in
  if decide (20 < length h') then slice_last 20 h' else h'.

Definition addMessage (sid : string) (r : Role) (c : string) (ss : Sessions)
  : Sessions :=
  match ss !! sid with
  | Some s =>
      <[sid := mkSession (callSid s) (from s) (to s) (startTime s)
                 (push_trim (mkMessage r c) (conversationHistory s))]> ss
  | None => ss
  end.

Definition endSession (sid : string) (ss : Sessions) : Sessions :=
  match ss !! sid with
  | Some _ => delete sid ss
  | None => ss
  end.

Definition getActiveCallCount (ss : Sessions) : nat := size ss.

Definition shutdown (ss : Sessions) : Sessions := ∅.

(** History of a call, when the call has a session. *)
Definition historyOf (sid : string) (ss : Sessions) : option (list Message) :=
  conversationHistory <$> ss !! sid.

(** A run of [addMessage] calls on one call identifier. *)
Definition addMessages (sid : string) (ms : list Message) (ss : Sessions)
  : Sessions :=
  foldl (fun acc m => addMessage sid (role m) (content m) acc) ss ms.

End SessionManager.

(** ** JavaScript strings and global regular-expression replacement *)

Module Js.

(** The normalizer works on the characters of a string, so its strings
    are sequences of UTF-16 code units, the unit the (non-unicode)
    regular expressions of the source match on. *)
Abbreviation str := (list N).

Fixpoint units (s : string) : str :=
  match s with
  | EmptyString => []
  | String a s' => N_of_ascii a :: units s'
  end.

(** The class [\s], which is also what [String.prototype.trim] strips:
    white space and line terminators. *)
Definition is_space (c : N) : bool :=
  ((9 <=? c) && (c <=? 13) || (c =? 32) || (c =? 160) || (c =? 5760)
   || (8192 <=? c) && (c <=? 8202) || (c =? 8232) || (c =? 8233)
   || (c =? 8239) || (c =? 8287) || (c =? 12288) || (c =? 65279))%N.

Fixpoint take_while (p : N -> bool) (s : str) : str :=
  match s with
  | c :: s' => if p c then c :: take_while p s' else []
  | [] => []
  end.

Fixpoint drop_while (p : N -> bool) (s : str) : str :=
  match s with
  | c :: s' => if p c then drop_while p s' else s
  | [] => []
  end.

Definition trim (s : str) : str :=
  reverse (drop_while is_space (reverse (drop_while is_space s))).

Fixpoint starts_with (pat s : str) : bool :=
  match pat, s with
  | [], _ => true
  | p :: pat', c :: s' => (p =? c)%N && starts_with pat' s'
  | _ :: _, [] => false
  end.

(** A matcher tries one pattern at the head of the remaining text and
    answers with the replacement and the (positive) length matched. *)
Abbreviation matcher := (str -> option (str * nat)).

(** [text.replace(/re/g, rep)]: left to right, at every position either
    the pattern matches (the replacement is emitted and the scan resumes
    behind the match) or the character is copied.  [skip] counts the
    characters of the current match still to be passed over. *)
Fixpoint gsub_from (m : matcher) (skip : nat) (s : str) : str :=
  match s with
  | [] => []
  | c :: s' =>
      match skip with
      | S k => gsub_from m k s'
      | O =>
          match m s with
          | Some (rep, len) => rep ++ gsub_from m (len - 1) s'
          | None => c :: gsub_from m 0 s'
          end
      end
  end.

Definition gsub (m : matcher) (s : str) : str := gsub_from m 0 s.

(** A literal pattern. *)
Definition lit (pat rep : str) : matcher :=
  fun s => if starts_with pat s then Some (rep, length pat) else None.

(** A one-character class. *)
Definition class (p : N -> bool) (rep : str) : matcher :=
  fun s => match s with
           | c :: _ => if p c then Some (rep, 1) else None
           | [] => None
           end.

End Js.

(** ** Voice-text normalizer (services/llama/streaming.handler.ts) *)

Module StreamingHandler.
Import Js.

Definition star : N := 42.
Definition backtick : N := 96.
Definition hash : N := 35.
Definition lbracket : N := 91.
Definition rbracket : N := 93.
Definition lparen : N := 40.
Definition rparen : N := 41.
Definition space : N := 32.

Definition fence : str := [backtick; backtick; backtick].

(** Offset of the first closing fence, for the lazy [[\s\S]*?]. *)
Fixpoint find_fence (s : str) : option nat :=
  match s with
  | [] => None
  | _ :: s' => if starts_with fence s then Some 0 else S <$> find_fence s'
  end.

(** [/```[\s\S]*?```/] *)
Definition code_block : matcher :=
  fun s =>
    if starts_with fence s then
      match find_fence (drop 3 s) with
      | Some k => Some ([], 3 + k + 3)
      | None => None
      end
    else None.

(** [/`([^`]+)`/] with replacement [$1] *)
Definition inline_code : matcher :=
  fun s =>
    match s with
    | c :: s' =>
        if (c =? backtick)%N then
          let body := take_while (fun x => negb (x =? backtick)%N) s' in
          match body, drop (length body) s' with
          | _ :: _, _ :: _ => Some (body, 1 + length body + 1)
          | _, _ => None
          end
        else None
    | [] => None
    end.

(** [/#{1,6}\s/]: the greedy quantifier tries [j] hashes, the longest
    run first, then backs off. *)
Fixpoint header_try (j : nat) (s : str) : option (str * nat) :=
  match j with
  | O => None
  | S j' =>
      if forallb (fun x => (x =? hash)%N) (take j s)
         && (length (take j s) =? j)%nat
         && from_option is_space false (s !! j)
      then Some ([], j + 1)
      else header_try j' s
  end.

Definition header : matcher := header_try 6.

(** [/\[([^\]]+)\]\([^)]+\)/] with replacement [$1] *)
Definition link : matcher :=
  fun s =>
    match s with
    | c :: s1 =>
        if (c =? lbracket)%N then
          let text := take_while (fun x => negb (x =? rbracket)%N) s1 in
          match text, drop (length text) s1 with
          | _ :: _, _ :: p :: s2 =>
              if (p =? lparen)%N then
                let url := take_while (fun x => negb (x =? rparen)%N) s2 in
                match url, drop (length url) s2 with
                | _ :: _, _ :: _ =>
                    Some (text, 1 + length text + 2 + length url + 1)
                | _, _ => None
                end
              else None
          | _, _ => None
          end
        else None
    | [] => None
    end.

(** [/\s+/] with replacement [' '] *)
Definition spaces : matcher :=
  fun s =>
    match take_while is_space s with
    | [] => None
    | run => Some ([space], length run)
    end.

Definition cleanForVoice (text : str) : str :=
  let text := gsub (lit [star; star] []) text in
  let text := gsub (lit [star] []) text in
  let text := gsub code_block text in
  let text := gsub inline_code text in
  let text := gsub header text in
  let text := gsub link text in
  let text := gsub (class (fun c => (c =? 60) || (c =? 62))%N []) text in
  let text := gsub (lit (units "&") (units " and ")) text in
  let text := gsub (lit (units "@") (units " at ")) text in
  let text := gsub (lit (units "#") (units " number ")) text in
  let text := gsub spaces text in
  trim text.

End StreamingHandler.

(** ** Token buffering (services/llama/streaming.handler.ts) *)

Module TokenBuffer.
Import Js StreamingHandler.

(** [text.split(' ')] *)
Fixpoint split_spaces (cur : str) (s : str) : list str :=
  match s with
  | [] => [reverse cur]
  | c :: s' =>
      if (c =? space)%N then reverse cur :: split_spaces [] s'
      else split_spaces (c :: cur) s'
  end.

(** [/[.!?]/.test(word)] *)
Definition ends_sentence (word : str) : bool :=
  existsb (fun c => (c =? 46) || (c =? 33) || (c =? 63))%N word.

(** The loop of [bufferTokensForSpeech] over the words, with the
    sentence being built and its word count as loop state. *)
Fixpoint buffer_loop (bufferSize : nat) (currentSentence : str)
    (wordCount : nat) (words : list str) : list str :=
  match words with
  | [] =>
      match trim currentSentence with
      | [] => []
      | rest => [rest]
      end
  | word :: words' =>
      let currentSentence :=
        currentSentence
        ++ (match currentSentence with [] => [] | _ => [space] end) ++ word in
      let wordCount := S wordCount in
      if ends_sentence word || (bufferSize <=? wordCount)%nat
      then trim currentSentence :: buffer_loop bufferSize [] 0 words'
      else buffer_loop bufferSize currentSentence wordCount words'
  end.

Definition bufferTokensForSpeech (text : str) (bufferSize : nat) : list str :=
  buffer_loop bufferSize [] 0 (split_spaces [] text).

End TokenBuffer.

(** ** Completion service (services/llama/llama.service.ts) *)

Module LlamaService.

(** What [client.chat.completions.create] hands back without
    streaming: a string content, an object content with a [text]
    field, no usable content, or a thrown error with its [name]. *)
Inductive Completion :=
| ContentString (s : string)
| ContentText (s : string)
| ContentNone
| Throws (name : string).

Section Requests.
(** [config.llama.systemPrompt] *)
Variable systemPrompt : string.

(** [buildMessages]: a [ConversationEntry] is read through its
    [role] and [content] only. *)
Definition buildMessages (userPrompt : string)
    (conversationHistory : list Message) : list Message :=
  let messages := [mkMessage system systemPrompt] in
  let recentHistory := slice_last 10 conversationHistory in
  let messages :=
    foldl (fun acc entry =>
             if decide (role entry ≠ system)
             then acc ++ [mkMessage (role entry) (content entry)]
             else acc)
          messages recentHistory in
  messages ++ [mkMessage user userPrompt].

(** The backend, as a function of the request it is sent. *)
Variable complete : list Message -> Completion.

Definition generateResponse (userPrompt : string)
    (conversationHistory : list Message) : string :=
  match complete (buildMessages userPrompt conversationHistory) with
  | ContentString s => s
  | ContentText s => s
  | ContentNone => "I apologize, but I was unable to generate a response."
  | Throws name =>
      if decide (name = "RateLimitError") then
        "I apologize, but the service is currently experiencing high demand. Please try again in a moment."
      else if decide (name = "AuthenticationError") then
        "I apologize, but there is a configuration issue. Please contact support."
      else if decide (name = "APIConnectionTimeoutError") then
        "I apologize, but the request timed out. Please try again."
      else if decide (name = "InternalServerError") then
        "I apologize, but the service is temporarily unavailable. Please try again later."
      else "I apologize, but I encountered an error. Please try again."
  end.
End Requests.

(** *** Stream bookkeeping

    Every call of [generateStreamingResponse] allocates its own
    [AbortController]; [activeStreams] maps a session identifier to
    one of them.  The controllers are kept in allocation order, a
    reference is the index of a controller. *)

Record Stream := mkStream {
  sessionId : string;
  aborted : bool;     (* [abortController.signal.aborted] *)
  finished : bool     (* the call went through its [finally] block *)
}.

Record Streams := mkStreams {
  controllers : list Stream;
  activeStreams : gmap string nat
}.

Definition noStreams : Streams := mkStreams [] ∅.

(** Entry of [generateStreamingResponse], up to its first [await]:
    allocate the controller and store it under the session. *)
Definition startStream (sid : string) (st : Streams) : nat * Streams :=
  let ref := length (controllers st) in
  (ref, mkStreams (controllers st ++ [mkStream sid false false])
                  (<[sid := ref]> (activeStreams st))).

(** One iteration of the [for await] loop of the call owning [ref]: an
    aborted call breaks out, otherwise the content is buffered,
    cleaned and the non-empty chunks are given to [onChunk]. *)
Definition streamToken (ref : nat) (content : Js.str) (st : Streams)
  : list Js.str :=
  match controllers st !! ref with
  | Some s =>
      if aborted s || finished s then []
      else
        match content with
        | [] => []
        | _ =>
            List.filter (fun c => match c with [] => false | _ => true end)
              (map StreamingHandler.cleanForVoice
                   (TokenBuffer.bufferTokensForSpeech content 5))
        end
  | None => []
  end.

(** The [finally] block of the call owning [ref], which a call runs
    once. *)
Definition finishStream (ref : nat) (st : Streams) : Streams :=
  match controllers st !! ref with
  | Some s =>
      if finished s then st
      else
        mkStreams
          (<[ref := mkStream (sessionId s) (aborted s) true]> (controllers st))
          (delete (sessionId s) (activeStreams st))
  | None => st
  end.

Definition cancelStream (sid : string) (st : Streams) : Streams :=
  match activeStreams st !! sid with
  | Some ref =>
      mkStreams
        (alter (fun s => mkStream (sessionId s) true (finished s)) ref
               (controllers st))
        (delete sid (activeStreams st))
  | None => st
  end.

(** The calls of a session that are still running and not aborted. *)
Definition outstanding (sid : string) (st : Streams) : list Stream :=
  List.filter
    (fun s => bool_decide (sessionId s = sid) && negb (aborted s) && negb (finished s))
    (controllers st).

(** Operations on the service, for traces. *)
Inductive Op :=
| Start (sid : string)
| Finish (ref : nat)
| Cancel (sid : string).

Definition step (st : Streams) (o : Op) : Streams :=
  match o with
  | Start sid => snd (startStream sid st)
  | Finish ref => finishStream ref st
  | Cancel sid => cancelStream sid st
  end.

Definition run (ops : list Op) : Streams := foldl step noStreams ops.

End LlamaService.

(** ** Message router (services/websocket/message.handler.ts) *)

Module MessageHandler.
Import SessionManager.

Inductive IncomingMessage :=
| SetupMessage (callSid from to : string)
| PromptMessage (voicePrompt : string)
| InterruptMessage
| DtmfMessage (digit : string)
| EndMessage
| ErrorMessage (description : string)
| OtherMessage.   (* ping and anything unrecognized: the [default] case *)

Inductive ResponseMessage :=
| TextMessage (token : string) (interruptible : bool) (last : bool)
| PlayMessage (source : string)
| SendDigitsMessage (digits : string)
| LanguageMessage
| EndSessionMessage.

#[global] Instance ResponseMessage_eq_dec : EqDecision ResponseMessage.
Proof. solve_decision. Defined.

Record Config := mkConfig {
  enableDtmf : bool;            (* [config.features.enableDtmf] *)
  enableInterruptions : bool;   (* [config.features.enableInterruptions] *)
  systemPrompt : string         (* [config.llama.systemPrompt] *)
}.

(** What a handler can reach: the shared session registry, the stream
    table of the completion service, and the call identifier stored on
    the connection ([ws.callSid], [None] for [undefined]). *)
Record World := mkWorld {
  sessions : gmap string Session;
  streams : LlamaService.Streams;
  wsCallSid : option string
}.

(** Truthiness of [ws.callSid]: [undefined] and the empty string are
    both falsy. *)
Definition truthy (o : option string) : option string :=
  match o with
  | Some s => if decide (s = "") then None else Some s
  | None => None
  end.

(** How the awaited [generateResponse] call of a prompt ends: with a
    response, or rejected. *)
Inductive Settled :=
| Resolved (response : string)
| Rejected.

Section Handlers.
Variable config : Config.
Variable complete : list Message -> LlamaService.Completion.
(** [new Date()] at session creation. *)
Variable now : N.

Definition handleSetup (sid f t : string) (w : World)
  : World * option ResponseMessage :=
  let '(_, ss) := createSession now sid f t (sessions w) in
  (mkWorld ss (streams w) (Some sid), None).

(** The request that [handlePrompt] has the service build: the user
    turn is first added to the session, whose history is then read
    back from the same session object. *)
Definition promptRequest (sid voicePrompt : string)
    (ss : gmap string Session) : list Message :=
  let ss := addMessage sid user voicePrompt ss in
  LlamaService.buildMessages (systemPrompt config) voicePrompt
    (default [] (historyOf sid ss)).

(** [handlePrompt] up to its [await]: the guards on [ws.callSid] and on
    the session, the user turn added to the session, and the history
    that goes into the request, read back from the same session object.
    [None] when the prompt is dropped. *)
Definition promptBegin (voicePrompt : string) (w : World)
  : World * option (list Message) :=
  match truthy (wsCallSid w) with
  | None => (w, None)
  | Some sid =>
      match getSession sid (sessions w) with
      | None => (w, None)
      | Some _ =>
          let ss := addMessage sid user voicePrompt (sessions w) in
          (mkWorld ss (streams w) (wsCallSid w),
           Some (default [] (historyOf sid ss)))
      end
  end.

(** [handlePrompt] from the point where the awaited call settles, in
    the state the registry and the connection are in by then (other
    events of the connection are handled while the call is pending).
    An answer is added as assistant turn under whatever [ws.callSid] is
    at that moment, a no-op when it is [undefined] or names no session,
    and is returned as text; a rejected call takes the [catch] block,
    which records nothing and returns the handler's own apology. *)
Definition promptSettle (outcome : Settled) (w : World)
  : World * option ResponseMessage :=
  match outcome with
  | Resolved response =>
      (mkWorld
         (match wsCallSid w with
          | Some sid => addMessage sid assistant response (sessions w)
          | None => sessions w
          end)
         (streams w) (wsCallSid w),
       Some (TextMessage response (enableInterruptions config) true))
  | Rejected =>
      (w, Some (TextMessage
                  "I apologize, but I had trouble processing that. Could you please try again?"
                  true true))
  end.

(** [handlePrompt] when no other event is handled while the backend
    call is pending: the call settles in the state [promptBegin] left.
    [generateResponse] catches what the backend throws, so for the
    backends of [Completion] it resolves. *)
Definition handlePrompt (voicePrompt : string) (w : World)
  : World * option ResponseMessage :=
  match promptBegin voicePrompt w with
  | (w', Some conversationHistory) =>
      promptSettle
        (Resolved
           (LlamaService.generateResponse (systemPrompt config) complete
              voicePrompt conversationHistory))
        w'
  | (w', None) => (w', None)
  end.

Definition handleInterrupt (w : World) : World * option ResponseMessage :=
  match truthy (wsCallSid w) with
  | Some sid =>
      (mkWorld (sessions w) (LlamaService.cancelStream sid (streams w))
               (wsCallSid w), None)
  | None => (w, None)
  end.

Definition handleDtmf (digit : string) (w : World)
  : World * option ResponseMessage :=
  if negb (enableDtmf config) then (w, None)
  else if decide (digit = "#") then (w, Some EndSessionMessage)
  else
    let response :=
      if decide (digit = "*") then "You pressed star. How can I help you?"
      else if decide (digit = "0") then
        "You pressed zero. Transferring to an operator is not available at this time."
      else ("You pressed " +:+ digit +:+ ". Please speak your request.")%string in
    (w, Some (TextMessage response true true)).

Definition handleEnd (w : World) : World * option ResponseMessage :=
  match truthy (wsCallSid w) with
  | Some sid =>
      (mkWorld (endSession sid (sessions w)) (streams w) None, None)
  | None => (w, None)
  end.

Definition handleMessage (message : IncomingMessage) (w : World)
  : World * option ResponseMessage :=
  match message with
  | SetupMessage sid f t => handleSetup sid f t w
  | PromptMessage p => handlePrompt p w
  | InterruptMessage => handleInterrupt w
  | DtmfMessage d => handleDtmf d w
  | EndMessage => handleEnd w
  | ErrorMessage _ => (w, None)
  | OtherMessage => (w, None)
  end.
End Handlers.

End MessageHandler.

(** ** DTMF command matcher (services/conversation/dtmf.handler)

    The matcher is exercised by tests/unit/dtmf.handler.test.ts and its
    command type is declared in types/websocket.types.ts, but its own
    source file is not among the sources: what follows the two declared
    types is modelled on the specification (section 4.2).  The router's
    [handleDtmf] above does not call it. *)

Module DtmfHandler.

(** [DtmfCommand.action], as declared in types/websocket.types.ts. *)
Inductive Action := end_call | transfer | menu | repeat | custom.

(** [DtmfCommand], without its optional custom side effect. *)
Record DtmfCommand := mkCommand {
  sequence : string;
  action : Action;
  description : string
}.

(** The part of [SessionState] the matcher works on. *)
Record SessionState := mkState {
  conversationHistory : list Message;
  dtmfBuffer : string
}.

(** Modelled from the spec: the effect of a matched command, missing
    with [DtmfHandler]: a spoken response, or an end-call or transfer
    directive. *)
Inductive Effect :=
| Speak (message : string)
| EndCallDirective
| TransferDirective.

(** Modelled from the spec: the outcomes of [processDigits], missing
    with [DtmfHandler]: match, pending, no match, the reserved end of
    call and buffer clear, and the rejection of a non-digit. *)
Inductive Result :=
| Matched (cmd : DtmfCommand) (effect : Effect)
| Pending          (* "continue entering digits" *)
| NoMatch          (* "not a valid option" *)
| EndCall
| BufferCleared
| Rejected.

(** Modelled from the spec: the digits [0-9*#] the missing
    [processDigits] accepts. *)
Definition isDigit (d : string) : bool :=
  bool_decide (d ∈ ["0"; "1"; "2"; "3"; "4"; "5"; "6"; "7"; "8"; "9"; "*"; "#"]).

(** Modelled from the spec: the last assistant utterance that the
    missing repeat command reads from the history. *)
Definition lastAssistant (h : list Message) : option string :=
  content <$> last (filter (fun m => role m = assistant) h).

(** Modelled from the spec: what executing a matched command gives in
    the missing [processDigits]; repeat speaks the last assistant
    utterance or the fixed "No previous message to repeat.", a custom
    or menu command speaks its description. *)
Definition effectOf (cmd : DtmfCommand) (s : SessionState) : Effect :=
  match action cmd with
  | end_call => EndCallDirective
  | transfer => TransferDirective
  | repeat =>
      Speak (default "No previous message to repeat."
               (lastAssistant (conversationHistory s)))
  | menu | custom => Speak (description cmd)
  end.

(** Modelled from the spec: the buffer is a strict prefix of a
    registered sequence (used by the missing [processDigits]). *)
Definition strictPrefix (buf seq : string) : bool :=
  String.prefix buf seq && negb (String.eqb buf seq).

(** Modelled from the spec: the command table of the DTMF matcher,
    whose source file is not among the sources (its tests and the
    [DtmfCommand] declaration are).  The table is keyed by sequence;
    the defaults are the reserved and default commands the spec lists. *)
Definition defaultCommands : gmap string DtmfCommand :=
  list_to_map
    [("#", mkCommand "#" end_call "End call");
     ("*", mkCommand "*" menu "Main menu");
     ("0", mkCommand "0" transfer "Transfer to operator");
     ("1", mkCommand "1" menu "Account information");
     ("9", mkCommand "9" repeat "Repeat last message")].

(** Modelled from the spec: the missing [registerCommand]; a runtime
    registration adds the command under its sequence. *)
Definition registerCommand (cmd : DtmfCommand)
    (table : gmap string DtmfCommand) : gmap string DtmfCommand :=
  <[sequence cmd := cmd]> table.

(** Modelled from the spec: the matcher's algorithm on receiving digit
    [d] for session [s] (the source of [processDigits] is missing).  A
    digit outside [0-9*#] is rejected without touching the buffer; [#]
    ends the call whatever the buffer holds; the digit is appended to
    the buffer; a buffer that became [**] is the clear command and
    skips the table; an exact entry with no longer sequence behind it
    is a match and clears the buffer; a buffer that is a strict prefix
    of some sequence stays pending; anything else is no match and
    clears the buffer. *)
Definition processDigits (table : gmap string DtmfCommand) (d : string)
    (s : SessionState) : Result * SessionState :=
  if negb (isDigit d) then (Rejected, s)
  else if decide (d = "#") then (EndCall, mkState (conversationHistory s) "")
  else
    let buf := (dtmfBuffer s +:+ d)%string in
    if decide (buf = "**") then (BufferCleared, mkState (conversationHistory s) "")
    else
      let longer := List.filter (strictPrefix buf) (map fst (map_to_list table)) in
      match table !! buf, longer with
      | Some cmd, [] =>
          (Matched cmd (effectOf cmd s), mkState (conversationHistory s) "")
      | _, _ :: _ => (Pending, mkState (conversationHistory s) buf)
      | None, [] => (NoMatch, mkState (conversationHistory s) "")
      end.

(** Modelled from the spec: the missing [processDigits] called once per
    digit on one session, the results collected. *)
Fixpoint feed (table : gmap string DtmfCommand) (ds : list string)
    (s : SessionState) : list Result * SessionState :=
  match ds with
  | [] => ([], s)
  | d :: ds' =>
      let '(r, s') := processDigits table d s in
      let '(rs, s'') := feed table ds' s' in
      (r :: rs, s'')
  end.

End DtmfHandler.

(** ** Example data *)

(** A registry with one call, nineteen entries into its conversation. *)
Definition exampleSessions : gmap string SessionManager.Session :=
  {[ "CA1" := SessionManager.mkSession "CA1" "+1" "+2" 0
                (replicate 19 (mkMessage user "a")) ]}.

(** A configuration with both features on. *)
Definition exampleConfig : MessageHandler.Config :=
  MessageHandler.mkConfig true true "You are a helpful voice assistant.".

(** A backend that always answers with the same text. *)
Definition exampleBackend : list Message -> LlamaService.Completion :=
  fun _ => LlamaService.ContentString "Hello!".

(** A registry with one call that has not spoken yet. *)
Definition freshSessions : gmap string SessionManager.Session :=
  {[ "CA1" := SessionManager.mkSession "CA1" "+1" "+2" 0 [] ]}.

(** A connection on which no call has been set up. *)
Definition idleWorld : MessageHandler.World :=
  MessageHandler.mkWorld ∅ LlamaService.noStreams None.

(** Whether the connection's call identifier names a stored session. *)
Definition liveSession (w : MessageHandler.World) : option SessionManager.Session :=
  sid ← MessageHandler.truthy (MessageHandler.wsCallSid w);
  MessageHandler.sessions w !! sid.

(** ** Vocabulary for the normalizer's properties *)

Module Voice.
Import Js StreamingHandler.

(** The characters the normalizer strips or replaces as symbols. *)
Definition symbol (c : N) : bool :=
  existsb (N.eqb c) (units "*`#<>&@").

(** Content: neither white space nor one of those symbols. *)
Definition content (c : N) : bool := negb (is_space c) && negb (symbol c).

(** White space is normalised when every white-space character is a
    plain space that has a non-space character behind it. *)
Fixpoint single_spaced (s : str) : bool :=
  match s with
  | [] => true
  | c :: s' =>
      (negb (is_space c)
       || (c =? space)%N
          && match s' with d :: _ => negb (is_space d) | [] => false end)
      && single_spaced s'
  end.

(** Text that is already clean: none of the symbols, nothing the link
    pattern matches, white space normalised and none at the start. *)
Definition alreadyClean (s : str) : bool :=
  forallb (fun c => negb (symbol c)) s
  && bool_decide (gsub link s = s)
  && single_spaced s
  && match s with c :: _ => negb (is_space c) | [] => true end.

(** The text as it reaches the code-block pattern, and as it reaches
    the link pattern. *)
Definition beforeCodeBlocks (text : str) : str :=
  gsub (lit [star] []) (gsub (lit [star; star] []) text).

Definition beforeLinks (text : str) : str :=
  gsub header (gsub inline_code (gsub code_block (beforeCodeBlocks text))).

(** The normalizer finds no fenced code block, no link, in the text. *)
Definition noCodeBlock (text : str) : Prop :=
  gsub code_block (beforeCodeBlocks text) = beforeCodeBlocks text.

Definition noLink (text : str) : Prop :=
  gsub link (beforeLinks text) = beforeLinks text.

(** A pattern keeps the content when the content characters of what
    it matches are found, in order, in what it puts in their place. *)
Definition keeps (m : matcher) : Prop :=
  ∀ s rep len,
    m s = Some (rep, len) →
    0 < len ∧ filter content (take len s) `sublist_of` filter content rep.

End Voice.

(** ** Speakable chunks (services/llama/streaming.handler.ts) *)

Module SpeakableChunks.
Import Js StreamingHandler.

(** The look-behind [(?<=[.!?])] on the character before the position. *)
Definition after_ender (prev : option N) : bool :=
  match prev with
  | Some p => (p =? 46)%N || (p =? 33)%N || (p =? 63)%N
  | None => false
  end.

(** [cleanText.split(/(?<=[.!?])\s+/)]: at a white-space character that
    follows a sentence ender the piece read so far is closed and the
    whole white-space run is passed over ([skip] counts what is left of
    it); the text behind the last separator is the last piece. *)
Fixpoint split_from (prev : option N) (skip : nat) (cur : str) (s : str)
  : list str :=
  match s with
  | [] => [reverse cur]
  | c :: s' =>
      match skip with
      | S k => split_from (Some c) k cur s'
      | O =>
          if after_ender prev && is_space c
          then reverse cur
               :: split_from (Some c) (length (take_while is_space s) - 1) [] s'
          else split_from (Some c) 0 (c :: cur) s'
      end
  end.

Definition split_sentences (s : str) : list str := split_from None 0 [] s.

(** The loop of [splitIntoSpeakableChunks] over the sentences, with the
    chunk being built as loop state; an empty chunk is never pushed. *)
Fixpoint chunk_loop (maxLength : nat) (currentChunk : str)
    (sentences : list str) : list str :=
  match sentences with
  | [] => match currentChunk with [] => [] | _ => [currentChunk] end
  | sentence :: sentences' =>
      if (length (currentChunk ++ [space] ++ sentence) <=? maxLength)%nat
      then chunk_loop maxLength
             (currentChunk
              ++ (match currentChunk with [] => [] | _ => [space] end)
              ++ sentence)
             sentences'
      else (match currentChunk with [] => [] | _ => [currentChunk] end)
           ++ chunk_loop maxLength sentence sentences'
  end.

Definition splitIntoSpeakableChunks (text : str) (maxLength : nat) : list str :=
  let cleanText := cleanForVoice text in
  let sentences := split_sentences cleanText in
  chunk_loop maxLength [] sentences.

(** [processStreamingResponse]: the chunks handed to [onChunk], in
    order; a chunk that trims to nothing is passed over. *)
Definition processStreamingResponse (text : str) : list str :=
  List.filter (fun chunk => match trim chunk with [] => false | _ => true end)
    (splitIntoSpeakableChunks text 200).

End SpeakableChunks.

(** ** A connection's events in sequence *)

Module Router.
Import SessionManager MessageHandler.

(** The events of one connection handled one after the other, each with
    the clock reading at its arrival; the replies are collected in
    order. *)
Fixpoint handleEvents (config : Config)
    (complete : list Message -> LlamaService.Completion)
    (events : list (N * IncomingMessage)) (w : World)
  : World * list ResponseMessage :=
  match events with
  | [] => (w, [])
  | (now, message) :: events' =>
      let '(w', reply) := handleMessage config complete now message w in
      let '(w'', replies) := handleEvents config complete events' w' in
      (w'', match reply with Some r => r :: replies | None => replies end)
  end.

(** A prompt whose backend call is pending: the prompt and the history
    its request was built from. *)
Record Call := mkCall { asked : string; sent : list Message }.

(** What the event loop does next on an open connection: handle an
    inbound message up to the point where its handler returns or suspends, or
    resume the handler of a pending prompt because its backend call
    resolved (with the answer to the request it sent) or was rejected.
    Frames are not queued behind a pending call, so arrivals and
    settlements come in any order. *)
Inductive Tick :=
| Arrives (now : N) (message : IncomingMessage)
| Answers (i : nat)
| Fails (i : nat).

Definition tick (config : Config)
    (complete : list Message -> LlamaService.Completion)
    (t : Tick) (w : World) (pending : list Call)
  : World * list Call * option ResponseMessage :=
  match t with
  | Arrives _ (PromptMessage p) =>
      match promptBegin p w with
      | (w', Some h) => (w', pending ++ [mkCall p h], None)
      | (w', None) => (w', pending, None)
      end
  | Arrives now message =>
      let '(w', reply) := handleMessage config complete now message w in
      (w', pending, reply)
  | Answers i =>
      match pending !! i with
      | Some call =>
          let '(w', reply) :=
            promptSettle config
              (Resolved
                 (LlamaService.generateResponse (systemPrompt config) complete
                    (asked call) (sent call)))
              w in
          (w', delete i pending, reply)
      | None => (w, pending, None)
      end
  | Fails i =>
      match pending !! i with
      | Some call =>
          let '(w', reply) := promptSettle config Rejected w in
          (w', delete i pending, reply)
      | None => (w, pending, None)
      end
  end.

Fixpoint ticks (config : Config)
    (complete : list Message -> LlamaService.Completion)
    (ts : list Tick) (w : World) (pending : list Call)
  : World * list Call * list ResponseMessage :=
  match ts with
  | [] => (w, pending, [])
  | t :: ts' =>
      let '(w', pending', reply) := tick config complete t w pending in
      let '(w'', pending'', replies) := ticks config complete ts' w' pending' in
      (w'', pending'',
       match reply with Some r => r :: replies | None => replies end)
  end.


(** Every session is stored under its own call identifier and holds at
    most 20 history entries. *)
Definition wellKept (ss : gmap string Session) : Prop :=
  map_Forall (fun sid s => callSid s = sid
                           ∧ length (conversationHistory s) ≤ 20) ss.

(** The part of a session that [addMessage] has no business with. *)
Definition identity (s : Session) : string * string * string * N :=
  (callSid s, from s, to s, startTime s).

End Router.

(** ** Vocabulary for the output of the normalizer and the chunkers *)

Module Speech.
Import Js StreamingHandler.

(** A character that is not white space. *)
Definition ink (c : N) : bool := negb (is_space c).

(** The symbols that never reach the output of [cleanForVoice]. *)
Definition unspoken (c : N) : bool := existsb (N.eqb c) (units "*<>&@#").

(** Every white-space character is a plain space and no two stand
    side by side. *)
Fixpoint spaced (s : str) : bool :=
  match s with
  | [] => true
  | c :: s' =>
      (negb (is_space c)
       || (c =? space)%N
          && match s' with d :: _ => negb (is_space d) | [] => true end)
      && spaced s'
  end.

(** A text that does not start with white space (the empty text
    included). *)
Definition inked (s : str) : Prop :=
  match s with
  | c :: _ => is_space c = false
  | [] => True
  end.

(** Number of plain spaces, the word separator of the token buffer. *)
Definition count_spaces (s : str) : nat :=
  length (filter (fun c => c = space) s).

End Speech.

(** ** Vocabulary for the stream registry *)

Module StreamRegistry.

(** A stream registered for a session is one of that session's calls,
    still running and not aborted. *)
Definition registeredRunning (st : LlamaService.Streams) : Prop :=
  map_Forall
    (fun sid ref =>
       ∃ s, LlamaService.controllers st !! ref = Some s
            ∧ LlamaService.sessionId s = sid
            ∧ LlamaService.aborted s = false
            ∧ LlamaService.finished s = false)
    (LlamaService.activeStreams st).

End StreamRegistry.

(** ** Vocabulary for what a pass of the normalizer does to a text *)

Module Rewriting.
Import Js StreamingHandler.

(** [R] allows a segment at the head of the text. *)
Definition found (R : str -> str -> Prop) (s : str) : Prop :=
  ∃ seg rep rest, R seg rep ∧ s = seg ++ rest.

(** [Replaced R a b]: the text [b] is the text [a] read left to right,
    in which every segment that [R] allows at the position reached was
    replaced by the text [R] gives for it, the reading resuming behind
    the segment, and a character was copied only where [R] allows no
    segment. *)
Inductive Replaced (R : str -> str -> Prop) : str -> str -> Prop :=
| Replaced_nil : Replaced R [] []
| Replaced_copy (c : N) (a b : str) :
    ¬ found R (c :: a) -> Replaced R a b -> Replaced R (c :: a) (c :: b)
| Replaced_seg (seg rep a b : str) :
    R seg rep -> Replaced R a b -> Replaced R (seg ++ a) (rep ++ b).

(** A fenced code block, from a fence to the first fence behind it,
    replaced by nothing. *)
Definition fencedBlock (seg rep : str) : Prop :=
  rep = []
  ∧ ∃ body, seg = fence ++ body ++ fence
            ∧ ∀ pre post, body ++ fence = pre ++ fence ++ post → post = [].

(** A link [[text](url)], replaced by its text. *)
Definition linkToText (seg rep : str) : Prop :=
  rep ≠ []
  ∧ Forall (fun c => c ≠ rbracket) rep
  ∧ ∃ url, url ≠ []
           ∧ Forall (fun c => c ≠ rparen) url
           ∧ seg = [lbracket] ++ rep ++ [rbracket; lparen] ++ url ++ [rparen].

(** A pattern and the segments it stands for: what the pattern matches
    at a position is such a segment with its replacement, and at a
    position where such a segment starts the pattern matches it. *)
Definition stands_for (m : matcher) (R : str → str → Prop) : Prop :=
  (∀ s rep len, m s = Some (rep, len) →
                0 < len ∧ len ≤ length s ∧ R (take len s) rep)
  ∧ (∀ seg rep rest, R seg rep → m (seg ++ rest) = Some (rep, length seg)).

End Rewriting.

(** * Properties *)

(** ** Router: a prompt handled without overlap *)

Section PromptAtOnce.
Import SessionManager MessageHandler.

(** With nothing handled in between, the two halves of [handlePrompt]
    run on the same session under the same call identifier. *)
Lemma handlePrompt_at_once (config : Config)
    (complete : list Message -> LlamaService.Completion)
    (voicePrompt : string) (w : World) :
  handlePrompt config complete voicePrompt w
  = match truthy (wsCallSid w) with
    | None => (w, None)
    | Some sid =>
        match getSession sid (sessions w) with
        | None => (w, None)
        | Some _ =>
            let ss := addMessage sid user voicePrompt (sessions w) in
            let conversationHistory := default [] (historyOf sid ss) in
            let response :=
              LlamaService.generateResponse (systemPrompt config) complete
                voicePrompt conversationHistory in
            let ss := addMessage sid assistant response ss in
            (mkWorld ss (streams w) (wsCallSid w),
             Some (TextMessage response (enableInterruptions config) true))
        end
    end.
Proof.
  unfold handlePrompt, promptBegin.
  destruct (truthy (wsCallSid w)) as [sid |] eqn:Hsid; [| reflexivity].
  destruct (getSession sid (sessions w)); [| reflexivity].
  destruct (wsCallSid w) as [k |] eqn:Hk; [| discriminate].
  simpl in Hsid. case_decide; [discriminate |]. injection Hsid as ->.
  reflexivity.
Qed.
End PromptAtOnce.

(** ** Session registry: the history cap *)

Section HistoryCap.
Import SessionManager.

Lemma slice_last_length {A} (n : nat) (l : list A) :
  length (slice_last n l) ≤ n.
Proof. unfold slice_last. rewrite length_drop. lia. Qed.

Lemma slice_last_short {A} (n : nat) (l : list A) :
  length l ≤ n → slice_last n l = l.
Proof.
  intros Hle. unfold slice_last.
  replace (length l - n) with 0 by lia. reflexivity.
Qed.

(** Trimming early does not change what the last [n] entries are. *)
Lemma slice_last_app_l {A} (n : nat) (l k : list A) :
  slice_last n (slice_last n l ++ k) = slice_last n (l ++ k).
Proof.
  unfold slice_last.
  rewrite !length_app, length_drop.
  rewrite <- (drop_app_le l k (length l - n)) by lia.
  rewrite drop_drop. f_equal. lia.
Qed.

Lemma push_trim_slice (m : Message) (h : list Message) :
  push_trim m h = slice_last 20 (h ++ [m]).
Proof.
  unfold push_trim. case_decide as Hlen; [reflexivity |].
  symmetry. apply slice_last_short. lia.
Qed.

Lemma historyOf_addMessage sid r c (ss : gmap string Session) h :
  historyOf sid ss = Some h →
  historyOf sid (addMessage sid r c ss) = Some (push_trim (mkMessage r c) h).
Proof.
  unfold historyOf, addMessage. intros Hh.
  destruct (ss !! sid) as [s |] eqn:Hs; simpl in Hh; [| discriminate].
  injection Hh as <-. by rewrite lookup_insert_eq.
Qed.

Lemma addMessage_absent sid r c (ss : gmap string Session) :
  ss !! sid = None → addMessage sid r c ss = ss.
Proof. unfold addMessage. by intros ->. Qed.

Lemma historyOf_addMessages sid (ms : list Message) :
  ∀ (ss : gmap string Session) h,
    historyOf sid ss = Some h →
    historyOf sid (addMessages sid ms ss)
    = Some (foldl (fun acc m => push_trim m acc) h ms).
Proof.
  induction ms as [| m ms IH]; intros ss h Hh; [exact Hh |].
  unfold addMessages in *. simpl. apply IH.
  destruct m as [r c]. simpl. by apply historyOf_addMessage.
Qed.

Lemma foldl_push_trim (ms : list Message) :
  ∀ h m, foldl (fun acc x => push_trim x acc) h (m :: ms)
         = slice_last 20 (h ++ m :: ms).
Proof.
  induction ms as [| m' ms IH]; intros h m.
  - simpl. apply push_trim_slice.
  - change (foldl (fun acc x => push_trim x acc) h (m :: m' :: ms))
      with (foldl (fun acc x => push_trim x acc) (push_trim m h) (m' :: ms)).
    rewrite IH, push_trim_slice, slice_last_app_l.
    by rewrite <- app_assoc.
Qed.
End HistoryCap.

(** C1.  Whatever the session and whatever the run of [addMessage]
    calls made on it, after each (non-empty) run the history holds at
    most 20 entries, and they are the most recent 20 of everything
    appended so far, in order: the oldest entries are the ones dropped. *)
Theorem addMessage_history_cap (sid : string)
    (ss : gmap string SessionManager.Session) (h ms : list Message) :
  SessionManager.historyOf sid ss = Some h →
  ms ≠ [] →
  SessionManager.historyOf sid (SessionManager.addMessages sid ms ss)
  = Some (slice_last 20 (h ++ ms))
  ∧ length (slice_last 20 (h ++ ms)) ≤ 20
  ∧ slice_last 20 (h ++ ms) `suffix_of` (h ++ ms).
Proof.
  intros Hh Hms. split; [| split].
  - rewrite (historyOf_addMessages sid ms ss h Hh).
    destruct ms as [| m ms]; [done |]. by rewrite foldl_push_trim.
  - apply slice_last_length.
  - apply suffix_drop.
Qed.

Lemma addMessage_history_cap_witness :
  SessionManager.historyOf "CA1"
    (SessionManager.addMessages "CA1"
       [mkMessage user "b"; mkMessage assistant "c"] exampleSessions)
  = Some (slice_last 20 (replicate 19 (mkMessage user "a")
                         ++ [mkMessage user "b"; mkMessage assistant "c"]))
  ∧ length (slice_last 20 (replicate 19 (mkMessage user "a")
                           ++ [mkMessage user "b"; mkMessage assistant "c"])) ≤ 20
  ∧ slice_last 20 (replicate 19 (mkMessage user "a")
                   ++ [mkMessage user "b"; mkMessage assistant "c"])
      `suffix_of` (replicate 19 (mkMessage user "a")
                   ++ [mkMessage user "b"; mkMessage assistant "c"]).
Proof.
  apply (addMessage_history_cap "CA1" exampleSessions
           (replicate 19 (mkMessage user "a"))
           [mkMessage user "b"; mkMessage assistant "c"]).
  - reflexivity.
  - discriminate.
Defined.

(** ** Session registry: creation *)

(** The claim of C5 read on the code: a session already stored under the
    call identifier would survive a second [createSession].  It does
    not: the stored session, history included, is replaced. *)
Lemma createSession_existing_replaced :
  exampleSessions !! "CA1"
  = Some (SessionManager.mkSession "CA1" "+1" "+2" 0
            (replicate 19 (mkMessage user "a")))
  ∧ (SessionManager.createSession 7 "CA1" "+1" "+2" exampleSessions).2 !! "CA1"
    = Some (SessionManager.mkSession "CA1" "+1" "+2" 7 [])
  ∧ (SessionManager.createSession 7 "CA1" "+1" "+2" exampleSessions).2 !! "CA1"
    ≠ exampleSessions !! "CA1".
Proof.
  split; [reflexivity |].
  unfold SessionManager.createSession. simpl.
  rewrite lookup_insert_eq. split; [reflexivity |].
  unfold exampleSessions. rewrite lookup_singleton_eq. intros [=].
Qed.

(** C5, amended.  [createSession] always succeeds: it returns a fresh
    session with an empty history and stores it under the call
    identifier, replacing whatever session was stored there; the other
    sessions are untouched, and the registry, a map, holds one session
    per call identifier. *)
Theorem createSession_overwrites (now : N) (sid f t : string)
    (ss : gmap string SessionManager.Session) :
  (SessionManager.createSession now sid f t ss).1
  = SessionManager.mkSession sid f t now []
  ∧ (SessionManager.createSession now sid f t ss).2 !! sid
    = Some (SessionManager.mkSession sid f t now [])
  ∧ delete sid (SessionManager.createSession now sid f t ss).2 = delete sid ss.
Proof.
  unfold SessionManager.createSession. simpl. split; [reflexivity |]. split.
  - apply lookup_insert_eq.
  - apply delete_insert_eq.
Qed.

(** ** Completion service: the request *)

Section Request.
Variable systemPrompt : string.

Lemma buildMessages_loop (l : list Message) :
  ∀ acc,
    foldl (fun acc entry =>
             if decide (role entry ≠ system)
             then acc ++ [mkMessage (role entry) (content entry)]
             else acc) acc l
    = acc ++ filter (fun e => role e ≠ system) l.
Proof.
  induction l as [| e l IH]; intros acc; simpl.
  - by rewrite app_nil_r.
  - rewrite IH. destruct e as [r c]. simpl.
    rewrite filter_cons. simpl. case_decide; [| reflexivity].
    by rewrite <- app_assoc.
Qed.

(** [buildMessages] on its own terms: the system instruction, the
    last ten entries of the history it is handed without the
    system-role ones, then the user prompt. *)
Lemma buildMessages_shape (userPrompt : string) (h : list Message) :
  LlamaService.buildMessages systemPrompt userPrompt h
  = mkMessage system systemPrompt
    :: filter (fun e => role e ≠ system) (slice_last 10 h)
    ++ [mkMessage user userPrompt].
Proof. unfold LlamaService.buildMessages. by rewrite buildMessages_loop. Qed.
End Request.

(** What the router sends for a prompt: the history handed to
    [buildMessages] already ends with the new user turn. *)
Lemma promptRequest_shape (config : MessageHandler.Config)
    (sid voicePrompt : string) (ss : gmap string SessionManager.Session)
    (s : SessionManager.Session) :
  ss !! sid = Some s →
  MessageHandler.promptRequest config sid voicePrompt ss
  = mkMessage system (MessageHandler.systemPrompt config)
    :: filter (fun e => role e ≠ system)
         (slice_last 10
            (slice_last 20 (SessionManager.conversationHistory s
                            ++ [mkMessage user voicePrompt])))
    ++ [mkMessage user voicePrompt].
Proof.
  intros Hs. unfold MessageHandler.promptRequest.
  rewrite buildMessages_shape.
  erewrite historyOf_addMessage
    by (unfold SessionManager.historyOf; rewrite Hs; reflexivity).
  simpl. by rewrite push_trim_slice.
Qed.

(** The text [handlePrompt] answers with is the backend's reply to
    exactly that request. *)
Lemma handlePrompt_sends_promptRequest (config : MessageHandler.Config)
    (complete : list Message -> LlamaService.Completion) (reply : string)
    (voicePrompt sid : string) (w : MessageHandler.World)
    (s : SessionManager.Session) :
  MessageHandler.truthy (MessageHandler.wsCallSid w) = Some sid →
  MessageHandler.sessions w !! sid = Some s →
  complete (MessageHandler.promptRequest config sid voicePrompt
              (MessageHandler.sessions w))
  = LlamaService.ContentString reply →
  (MessageHandler.handlePrompt config complete voicePrompt w).2
  = Some (MessageHandler.TextMessage reply
            (MessageHandler.enableInterruptions config) true).
Proof.
  intros Hsid Hs Hreply. rewrite handlePrompt_at_once.
  rewrite Hsid. unfold SessionManager.getSession. rewrite Hs. simpl.
  unfold LlamaService.generateResponse.
  unfold MessageHandler.promptRequest in Hreply. by rewrite Hreply.
Qed.

(** C6.  On a call that has not spoken yet, the request built for the
    prompt "hi" holds the new user turn twice: once as the last entry
    of the history, which [handlePrompt] extended before building the
    request, and once as the final message. *)
Theorem promptRequest_repeats_user_turn :
  MessageHandler.promptRequest exampleConfig "CA1" "hi" freshSessions
  = [ mkMessage system "You are a helpful voice assistant.";
      mkMessage user "hi";
      mkMessage user "hi" ].
Proof. reflexivity. Qed.

(** ** Router: events without a session *)

(** The claim of C4 read on the code: a Dtmf event arriving on a
    connection without any session would produce no outbound event.  The
    handler answers it all the same. *)
Lemma handleDtmf_answers_without_session :
  liveSession idleWorld = None
  ∧ (MessageHandler.handleMessage exampleConfig exampleBackend 0
       (MessageHandler.DtmfMessage "1") idleWorld).2
    = Some (MessageHandler.TextMessage
              "You pressed 1. Please speak your request." true true).
Proof. split; reflexivity. Qed.

(** C4, amended.  A Prompt arriving when the connection has no call
    identifier, or when no session is stored under it, is dropped: no
    outbound event, nothing changed.  A Dtmf event does not look at the
    session: it goes unanswered exactly when the DTMF feature is off,
    and so is answered also without a session. *)
Theorem prompt_without_session_dropped (config : MessageHandler.Config)
    (complete : list Message -> LlamaService.Completion) (now : N)
    (w : MessageHandler.World) (voicePrompt digit : string) :
  liveSession w = None →
  MessageHandler.handleMessage config complete now
    (MessageHandler.PromptMessage voicePrompt) w = (w, None)
  ∧ ((MessageHandler.handleMessage config complete now
        (MessageHandler.DtmfMessage digit) w).2 = None
     ↔ MessageHandler.enableDtmf config = false).
Proof.
  intros Hlive. split.
  - simpl. rewrite handlePrompt_at_once. unfold liveSession in *.
    destruct (MessageHandler.truthy (MessageHandler.wsCallSid w)) as [sid |];
      [| reflexivity].
    simpl in Hlive. unfold SessionManager.getSession. by rewrite Hlive.
  - simpl. unfold MessageHandler.handleDtmf.
    destruct (MessageHandler.enableDtmf config); simpl; [| done].
    case_decide; simpl; split; discriminate.
Qed.

Lemma prompt_without_session_dropped_witness :
  MessageHandler.handleMessage exampleConfig exampleBackend 0
    (MessageHandler.PromptMessage "What's the weather?") idleWorld
  = (idleWorld, None)
  ∧ ((MessageHandler.handleMessage exampleConfig exampleBackend 0
        (MessageHandler.DtmfMessage "1") idleWorld).2 = None
     ↔ MessageHandler.enableDtmf exampleConfig = false).
Proof.
  apply (prompt_without_session_dropped exampleConfig exampleBackend 0
           idleWorld "What's the weather?" "1").
  reflexivity.
Defined.

(** ** Router: DTMF events *)

(** C10.  The answer to a Dtmf event is decided by the pressed digit
    (and the configuration) alone: two connections, whatever their
    sessions, histories and streams, get the same answer to the same
    digit, and handling the event leaves everything as it was. *)
Theorem handleDtmf_depends_on_digit_only (config : MessageHandler.Config)
    (complete1 complete2 : list Message -> LlamaService.Completion)
    (now1 now2 : N) (digit : string) (w1 w2 : MessageHandler.World) :
  (MessageHandler.handleMessage config complete1 now1
     (MessageHandler.DtmfMessage digit) w1).2
  = (MessageHandler.handleMessage config complete2 now2
       (MessageHandler.DtmfMessage digit) w2).2
  ∧ (MessageHandler.handleMessage config complete1 now1
       (MessageHandler.DtmfMessage digit) w1).1 = w1.
Proof.
  simpl. unfold MessageHandler.handleDtmf.
  destruct (MessageHandler.enableDtmf config); simpl; [| done].
  case_decide; done.
Qed.

(** The router's own DTMF handling keeps no digit buffer and reads no
    history: digit 9 is answered like any other digit. *)
Remark router_answers_digit_9 (complete : list Message -> LlamaService.Completion)
    (now : N) (w : MessageHandler.World) :
  MessageHandler.handleMessage exampleConfig complete now
    (MessageHandler.DtmfMessage "9") w
  = (w, Some (MessageHandler.TextMessage
                "You pressed 9. Please speak your request." true true)).
Proof. reflexivity. Qed.

(** ** Completion service: streams *)

(** The claim of C2 read on the code: a session never has more than one
    stream that is running and not aborted.  Starting a second stream
    for a call leaves the first one running. *)
Lemma two_streams_outstanding :
  LlamaService.outstanding "CA1"
    (LlamaService.run [LlamaService.Start "CA1"; LlamaService.Start "CA1"])
  = [ LlamaService.mkStream "CA1" false false;
      LlamaService.mkStream "CA1" false false ]
  ∧ ¬ length (LlamaService.outstanding "CA1"
               (LlamaService.run [LlamaService.Start "CA1"; LlamaService.Start "CA1"]))
      ≤ 1.
Proof. split; [reflexivity |]. simpl. lia. Qed.

Section Streams.
Import LlamaService.

Lemma outstanding_app sid cs1 cs2 am :
  outstanding sid (mkStreams (cs1 ++ cs2) am)
  = outstanding sid (mkStreams cs1 am) ++ outstanding sid (mkStreams cs2 am).
Proof. unfold outstanding. simpl. apply List.filter_app. Qed.

Lemma outstanding_controllers sid cs am1 am2 :
  outstanding sid (mkStreams cs am1) = outstanding sid (mkStreams cs am2).
Proof. reflexivity. Qed.

Lemma alter_at_end {A} (f : A → A) (l : list A) (x : A) :
  alter f (length l) (l ++ [x]) = l ++ [f x].
Proof.
  induction l as [| y l IH]; [reflexivity |].
  simpl. f_equal. exact IH.
Qed.
End Streams.

(** C2, amended.  [activeStreams] holds one cancellation handle per
    session, the one of the stream started last.  Starting a stream
    while another is running for the session does not cancel that one:
    every stream outstanding before is still outstanding, the new one is
    added, and a later [cancelStream] aborts the new one only. *)
Theorem startStream_keeps_previous (sid : string) (st : LlamaService.Streams) :
  LlamaService.activeStreams (LlamaService.startStream sid st).2 !! sid
  = Some (LlamaService.startStream sid st).1
  ∧ LlamaService.outstanding sid (LlamaService.startStream sid st).2
    = LlamaService.outstanding sid st ++ [LlamaService.mkStream sid false false]
  ∧ LlamaService.outstanding sid
      (LlamaService.cancelStream sid (LlamaService.startStream sid st).2)
    = LlamaService.outstanding sid st.
Proof.
  destruct st as [cs am]. unfold LlamaService.startStream. simpl.
  split; [apply lookup_insert_eq |]. split.
  - rewrite outstanding_app. f_equal.
    unfold LlamaService.outstanding. simpl.
    by rewrite bool_decide_eq_true_2.
  - unfold LlamaService.cancelStream. simpl. rewrite lookup_insert_eq.
    rewrite alter_at_end. simpl.
    rewrite outstanding_app.
    unfold LlamaService.outstanding at 2. simpl.
    rewrite bool_decide_eq_true_2 by done. simpl.
    by rewrite app_nil_r.
Qed.

(** When the stream that was replaced ends, its [finally] block removes
    the entry of the session, which by then belongs to the newer stream:
    that one keeps running without a registered handle. *)
Remark replaced_stream_unregisters_new :
  LlamaService.activeStreams
    (LlamaService.run [LlamaService.Start "CA1"; LlamaService.Start "CA1";
                       LlamaService.Finish 0]) !! "CA1" = None
  ∧ LlamaService.outstanding "CA1"
      (LlamaService.run [LlamaService.Start "CA1"; LlamaService.Start "CA1";
                         LlamaService.Finish 0])
    = [LlamaService.mkStream "CA1" false false].
Proof. split; reflexivity. Qed.

(** ** DTMF command matcher *)

(** C3.  With the command "123" registered next to the defaults, the
    digits 1, 2, 3 fed to one session (empty buffer at the start, any
    history) give pending, pending, then the match of that command; the
    digits 1, 2, 4 give pending, pending, then no match, and in both
    runs the buffer is empty at the end. *)
Theorem feed_123_pending_then_match (h : list Message) (desc : string) :
  DtmfHandler.feed
    (DtmfHandler.registerCommand
       (DtmfHandler.mkCommand "123" DtmfHandler.custom desc)
       DtmfHandler.defaultCommands)
    ["1"; "2"; "3"] (DtmfHandler.mkState h "")
  = ([ DtmfHandler.Pending; DtmfHandler.Pending;
       DtmfHandler.Matched (DtmfHandler.mkCommand "123" DtmfHandler.custom desc)
         (DtmfHandler.Speak desc) ],
     DtmfHandler.mkState h "")
  ∧ DtmfHandler.feed
      (DtmfHandler.registerCommand
         (DtmfHandler.mkCommand "123" DtmfHandler.custom desc)
         DtmfHandler.defaultCommands)
      ["1"; "2"; "4"] (DtmfHandler.mkState h "")
    = ([ DtmfHandler.Pending; DtmfHandler.Pending; DtmfHandler.NoMatch ],
       DtmfHandler.mkState h "").
Proof. split; vm_compute; reflexivity. Qed.

Section Repeat.
Import DtmfHandler.

Lemma lastAssistant_none (h : list Message) :
  Forall (fun m => role m ≠ assistant) h → lastAssistant h = None.
Proof.
  intros Hno. unfold lastAssistant.
  replace (filter (fun m => role m = assistant) h) with (@nil Message);
    [reflexivity |].
  symmetry. induction Hno as [| m l Hm Hl IH]; [reflexivity |].
  rewrite filter_cons. by case_decide.
Qed.

Lemma lastAssistant_some (h1 h2 : list Message) (t : string) :
  Forall (fun m => role m ≠ assistant) h2 →
  lastAssistant (h1 ++ mkMessage assistant t :: h2) = Some t.
Proof.
  intros Hno. unfold lastAssistant.
  rewrite filter_app, filter_cons. simpl.
  replace (filter (fun m => role m = assistant) h2) with (@nil Message).
  - by rewrite last_app.
  - symmetry. induction Hno as [| m l Hm Hl IH]; [reflexivity |].
    rewrite filter_cons. by case_decide.
Qed.

(** Digit 9 on an empty buffer with the default table is the repeat
    command. *)
Lemma processDigits_9 (h : list Message) :
  processDigits defaultCommands "9" (mkState h "")
  = (Matched (mkCommand "9" repeat "Repeat last message")
       (Speak (default "No previous message to repeat." (lastAssistant h))),
     mkState h "").
Proof. reflexivity. Qed.
End Repeat.

(** C9.  Digit 9 pressed on an empty buffer, with the default commands:
    when the history has no assistant entry (so also when it is empty or
    holds user entries only) the answer is "No previous message to
    repeat."; when it has one, the answer is the text of the most recent
    assistant entry. *)
Theorem digit_9_repeats_last_assistant
    (h h1 h2 : list Message) (t : string) :
  (Forall (fun m => role m ≠ assistant) h →
   (DtmfHandler.processDigits DtmfHandler.defaultCommands "9"
      (DtmfHandler.mkState h "")).1
   = DtmfHandler.Matched
       (DtmfHandler.mkCommand "9" DtmfHandler.repeat "Repeat last message")
       (DtmfHandler.Speak "No previous message to repeat."))
  ∧ (Forall (fun m => role m ≠ assistant) h2 →
     (DtmfHandler.processDigits DtmfHandler.defaultCommands "9"
        (DtmfHandler.mkState (h1 ++ mkMessage assistant t :: h2) "")).1
     = DtmfHandler.Matched
         (DtmfHandler.mkCommand "9" DtmfHandler.repeat "Repeat last message")
         (DtmfHandler.Speak t)).
Proof.
  split; intros Hno; rewrite processDigits_9; simpl.
  - by rewrite lastAssistant_none.
  - by rewrite lastAssistant_some.
Qed.

Lemma digit_9_repeats_last_assistant_witness :
  (DtmfHandler.processDigits DtmfHandler.defaultCommands "9"
     (DtmfHandler.mkState [mkMessage user "I need assistance"] "")).1
  = DtmfHandler.Matched
      (DtmfHandler.mkCommand "9" DtmfHandler.repeat "Repeat last message")
      (DtmfHandler.Speak "No previous message to repeat.")
  ∧ (DtmfHandler.processDigits DtmfHandler.defaultCommands "9"
       (DtmfHandler.mkState
          ([mkMessage assistant "Welcome! How can I help you?";
            mkMessage user "I need assistance"]
           ++ mkMessage assistant "I would be happy to help you with that."
           :: [mkMessage user "Thanks"]) "")).1
    = DtmfHandler.Matched
        (DtmfHandler.mkCommand "9" DtmfHandler.repeat "Repeat last message")
        (DtmfHandler.Speak "I would be happy to help you with that.").
Proof.
  pose proof (digit_9_repeats_last_assistant
                [mkMessage user "I need assistance"]
                [mkMessage assistant "Welcome! How can I help you?";
                 mkMessage user "I need assistance"]
                [mkMessage user "Thanks"]
                "I would be happy to help you with that.") as [H1 H2].
  split.
  - apply H1. repeat constructor; discriminate.
  - apply H2. repeat constructor; discriminate.
Defined.

(** ** Global replacement *)

Section Gsub.
Import Js.

Lemma gsub_from_drop (m : matcher) (s : str) :
  ∀ k, gsub_from m k s = gsub m (drop k s).
Proof.
  induction s as [| c s IH]; intros [| k]; try reflexivity.
  simpl. apply IH.
Qed.

Lemma gsub_nil (m : matcher) : gsub m [] = [].
Proof. reflexivity. Qed.

Lemma gsub_cons (m : matcher) (c : N) (s : str) :
  gsub m (c :: s)
  = match m (c :: s) with
    | Some (rep, len) => rep ++ gsub m (drop (len - 1) s)
    | None => c :: gsub m s
    end.
Proof.
  unfold gsub at 1. simpl.
  destruct (m (c :: s)) as [[rep len] |]; [| reflexivity].
  by rewrite gsub_from_drop.
Qed.

(** A pattern that can only start at a character satisfying [p] finds
    nothing in a text without such characters. *)
Lemma gsub_untouched (m : matcher) (p : N → bool) (s : str) :
  (∀ c s', p c = false → m (c :: s') = None) →
  Forall (fun c => p c = false) s →
  gsub m s = s.
Proof.
  intros Hm Hs. induction Hs as [| c s Hc Hs IH]; [reflexivity |].
  rewrite gsub_cons, (Hm c s Hc). by rewrite IH.
Qed.

Lemma starts_with_take (pat s : str) :
  starts_with pat s = true → take (length pat) s = pat.
Proof.
  revert s. induction pat as [| p pat IH]; intros [| c s] H; simpl in *;
    try done.
  apply andb_prop in H as [Hpc Hrest]. apply N.eqb_eq in Hpc as ->.
  f_equal. by apply IH.
Qed.

Lemma take_while_drop (p : N → bool) (s : str) :
  take_while p s ++ drop (length (take_while p s)) s = s.
Proof.
  induction s as [| c s IH]; [reflexivity |].
  simpl. destruct (p c); simpl; [by rewrite IH | reflexivity].
Qed.

Lemma take_while_all (p : N → bool) (s : str) :
  Forall (fun c => p c = true) (take_while p s).
Proof.
  induction s as [| c s IH]; simpl; [constructor |].
  destruct (p c) eqn:Hc; by constructor.
Qed.

Lemma take_while_stop (p : N → bool) (s : str) (c : N) (r : str) :
  drop (length (take_while p s)) s = c :: r → p c = false.
Proof.
  induction s as [| d s IH]; simpl; [done |].
  destruct (p d) eqn:Hd; simpl; [exact IH |].
  by intros [= <- _].
Qed.
End Gsub.

(** ** Normalizer: text that is already clean *)

Section AlreadyClean.
Import Js StreamingHandler Voice.

Lemma lit_untouched (p0 : N) (pat rep s : str) :
  Forall (fun c => (p0 =? c)%N = false) s →
  gsub (lit (p0 :: pat) rep) s = s.
Proof.
  apply gsub_untouched. intros c s' Hc. unfold lit. simpl. by rewrite Hc.
Qed.

Lemma class_untouched (p : N → bool) (rep s : str) :
  Forall (fun c => p c = false) s → gsub (class p rep) s = s.
Proof.
  apply gsub_untouched. intros c s' Hc. unfold class. by rewrite Hc.
Qed.

Lemma code_block_untouched (s : str) :
  Forall (fun c => (backtick =? c)%N = false) s → gsub code_block s = s.
Proof.
  apply gsub_untouched. intros c s' Hc. unfold code_block, fence.
  cbn [starts_with]. by rewrite Hc.
Qed.

Lemma inline_code_untouched (s : str) :
  Forall (fun c => (c =? backtick)%N = false) s → gsub inline_code s = s.
Proof.
  apply gsub_untouched. intros c s' Hc. unfold inline_code. by rewrite Hc.
Qed.

Lemma header_try_no_hash (j : nat) (c : N) (s : str) :
  (c =? hash)%N = false → header_try j (c :: s) = None.
Proof.
  intros Hc. induction j as [| j IH]; [reflexivity |].
  simpl. by rewrite Hc.
Qed.

Lemma header_untouched (s : str) :
  Forall (fun c => (c =? hash)%N = false) s → gsub header s = s.
Proof.
  apply gsub_untouched. intros c s' Hc. by apply header_try_no_hash.
Qed.

Lemma spaces_single_spaced (s : str) :
  single_spaced s = true → gsub spaces s = s.
Proof.
  induction s as [| c s IH]; [reflexivity |].
  intros H. simpl in H. apply andb_prop in H as [Hc Hs].
  rewrite gsub_cons. unfold spaces. simpl.
  destruct (is_space c) eqn:Hsp; simpl in Hc.
  - apply andb_prop in Hc as [Heq Hnext]. apply N.eqb_eq in Heq as ->.
    destruct s as [| d s]; [discriminate |].
    simpl. apply negb_true_iff in Hnext. rewrite Hnext. simpl.
    f_equal. by apply IH.
  - f_equal. by apply IH.
Qed.

Lemma single_spaced_last (s : str) (c : N) :
  single_spaced (s ++ [c]) = true → is_space c = false.
Proof.
  induction s as [| d s IH]; simpl.
  - destruct (is_space c); [| done]. by rewrite andb_false_r.
  - intros H. apply andb_prop in H as [_ H]. by apply IH.
Qed.

Lemma trim_tidy (s : str) :
  single_spaced s = true →
  match s with c :: _ => negb (is_space c) | [] => true end = true →
  trim s = s.
Proof.
  intros Hs Hhead. unfold trim.
  assert (drop_while is_space s = s) as ->.
  { destruct s as [| c s]; [reflexivity |].
    simpl. apply negb_true_iff in Hhead. by rewrite Hhead. }
  destruct s as [| c s _] using rev_ind; [reflexivity |].
  rewrite reverse_snoc. simpl.
  rewrite (single_spaced_last s c Hs). simpl.
  by rewrite <- reverse_snoc, reverse_involutive.
Qed.

(** Clean text goes through the normalizer unchanged. *)
Lemma cleanForVoice_alreadyClean (s : str) :
  alreadyClean s = true → cleanForVoice s = s.
Proof.
  unfold alreadyClean. intros H.
  apply andb_prop in H as [H Hhead]. apply andb_prop in H as [H Hsp].
  apply andb_prop in H as [Hsym Hlink].
  apply bool_decide_eq_true_1 in Hlink.
  assert (Forall (fun c => symbol c = false) s) as Hall.
  { apply Forall_forall. intros c Hc.
    rewrite forallb_forall in Hsym.
    specialize (Hsym c (proj1 (list_elem_of_In _ _) Hc)).
    by apply negb_true_iff in Hsym. }
  clear Hsym.
  assert (∀ k, symbol k = true →
               Forall (fun c => (k =? c)%N = false) s) as Hk.
  { intros k Hksym. eapply Forall_impl; [exact Hall |].
    intros c Hc. simpl in *.
    destruct (k =? c)%N eqn:E; [| reflexivity].
    apply N.eqb_eq in E as ->. congruence. }
  assert (∀ k, symbol k = true →
               Forall (fun c => (c =? k)%N = false) s) as Hk'.
  { intros k Hksym. eapply Forall_impl; [exact (Hk k Hksym) |].
    intros c Hc. simpl in *. by rewrite N.eqb_sym. }
  unfold cleanForVoice.
  rewrite (lit_untouched star [star] [] s) by (by apply Hk).
  rewrite (lit_untouched star [] [] s) by (by apply Hk).
  rewrite (code_block_untouched s) by (by apply Hk).
  rewrite (inline_code_untouched s) by (by apply Hk').
  rewrite (header_untouched s) by (by apply Hk').
  rewrite Hlink.
  rewrite (class_untouched _ [] s).
  2: { eapply Forall_impl; [exact Hall |]. intros c Hc. simpl in *.
       apply orb_false_intro.
       - destruct (c =? 60)%N eqn:E; [| reflexivity].
         apply N.eqb_eq in E as ->. discriminate.
       - destruct (c =? 62)%N eqn:E; [| reflexivity].
         apply N.eqb_eq in E as ->. discriminate. }
  change (units "&") with [38%N]. change (units "@") with [64%N].
  change (units "#") with [35%N].
  rewrite (lit_untouched 38 [] _ s) by (by apply Hk).
  rewrite (lit_untouched 64 [] _ s) by (by apply Hk).
  rewrite (lit_untouched 35 [] _ s) by (by apply Hk).
  rewrite (spaces_single_spaced s) by done.
  by apply trim_tidy.
Qed.
End AlreadyClean.

(** C8.  [cleanForVoice("**Hello** #1")] is ["Hello number 1"], cleaning
    that input twice gives what cleaning it once gives, and text that is
    already clean (none of the stripped or replaced symbols, no link,
    white space normalised) is left as it is, so that cleaning it twice equals cleaning it once. *)
Theorem cleanForVoice_hello_idempotent (t : Js.str) :
  Voice.alreadyClean t = true →
  StreamingHandler.cleanForVoice (Js.units "**Hello** #1")
  = Js.units "Hello number 1"
  ∧ StreamingHandler.cleanForVoice
      (StreamingHandler.cleanForVoice (Js.units "**Hello** #1"))
    = StreamingHandler.cleanForVoice (Js.units "**Hello** #1")
  ∧ StreamingHandler.cleanForVoice t = t
  ∧ StreamingHandler.cleanForVoice (StreamingHandler.cleanForVoice t)
    = StreamingHandler.cleanForVoice t.
Proof.
  intros Ht. split; [by vm_compute |]. split; [by vm_compute |].
  rewrite !(cleanForVoice_alreadyClean t Ht). by split.
Qed.

Lemma cleanForVoice_hello_idempotent_witness :
  StreamingHandler.cleanForVoice (Js.units "**Hello** #1")
  = Js.units "Hello number 1"
  ∧ StreamingHandler.cleanForVoice
      (StreamingHandler.cleanForVoice (Js.units "**Hello** #1"))
    = StreamingHandler.cleanForVoice (Js.units "**Hello** #1")
  ∧ StreamingHandler.cleanForVoice (Js.units "Hello number 1")
    = Js.units "Hello number 1"
  ∧ StreamingHandler.cleanForVoice
      (StreamingHandler.cleanForVoice (Js.units "Hello number 1"))
    = StreamingHandler.cleanForVoice (Js.units "Hello number 1").
Proof.
  apply (cleanForVoice_hello_idempotent (Js.units "Hello number 1")).
  vm_compute. reflexivity.
Defined.

(** A text with nested links needs one pass per level: outside clean
    text the normalizer is not idempotent. *)
Remark cleanForVoice_nested_links :
  StreamingHandler.cleanForVoice (Js.units "[[a](b)](c)") = Js.units "[a](c)"
  ∧ StreamingHandler.cleanForVoice (Js.units "[a](c)") = Js.units "a".
Proof. split; by vm_compute. Qed.

(** ** Normalizer: what is kept *)

Section Kept.
Import Js StreamingHandler Voice.

Lemma gsub_keeps_bounded (m : matcher) (n : nat) :
  keeps m →
  ∀ s, length s ≤ n → filter content s `sublist_of` filter content (gsub m s).
Proof.
  intros Hm. induction n as [| n IH]; intros [| c s] Hlen; simpl in Hlen;
    try done; try lia.
  rewrite gsub_cons.
  destruct (m (c :: s)) as [[rep len] |] eqn:Hmatch.
  - destruct (Hm _ _ _ Hmatch) as [Hpos Hsub].
    destruct len as [| l]; [lia |].
    rewrite <- (take_drop (S l) (c :: s)) at 1.
    rewrite !filter_app. apply sublist_app; [exact Hsub |].
    simpl. rewrite Nat.sub_0_r. apply IH.
    rewrite length_drop. lia.
  - rewrite !filter_cons. destruct (decide (content c)).
    + apply sublist_skip. apply IH. lia.
    + apply IH. lia.
Qed.

Lemma gsub_keeps (m : matcher) (s : str) :
  keeps m → filter content s `sublist_of` filter content (gsub m s).
Proof. intros Hm. by apply (gsub_keeps_bounded m (length s)). Qed.

Lemma no_content (s : str) :
  Forall (fun c => content c = false) s → filter content s = [].
Proof.
  induction 1 as [| c s Hc Hs IH]; [reflexivity |].
  rewrite filter_cons. destruct (decide (content c)) as [Hyes |]; [| done].
  rewrite Hc in Hyes. done.
Qed.

Lemma lit_keeps (pat rep : str) :
  pat ≠ [] → Forall (fun c => content c = false) pat → keeps (lit pat rep).
Proof.
  intros Hne Hpat s r len. unfold lit.
  destruct (starts_with pat s) eqn:Hs; [| done].
  intros [= <- <-]. split.
  - destruct pat; [done | simpl; lia].
  - rewrite (starts_with_take _ _ Hs), (no_content _ Hpat).
    apply sublist_nil_l.
Qed.

Lemma class_keeps (p : N → bool) (rep : str) :
  (∀ c, p c = true → content c = false) → keeps (class p rep).
Proof.
  intros Hp [| c s] r len; unfold class; [done |].
  destruct (p c) eqn:Hc; [| done].
  intros [= <- <-]. split; [lia |].
  simpl. rewrite filter_cons.
  destruct (decide (content c)) as [Hyes |]; [| apply sublist_nil_l].
  rewrite (Hp c Hc) in Hyes. done.
Qed.
End Kept.

Section KeptPatterns.
Import Js StreamingHandler Voice.

Lemma backtick_no_content (c : N) :
  (c =? backtick)%N = true → content c = false.
Proof. intros H. apply N.eqb_eq in H as ->. reflexivity. Qed.

Lemma space_no_content (c : N) : is_space c = true → content c = false.
Proof. intros H. unfold content. by rewrite H. Qed.

Lemma filter_content_skip (c : N) (s : str) :
  content c = false → filter content (c :: s) = filter content s.
Proof.
  intros Hc. rewrite filter_cons.
  destruct (decide (content c)) as [Hyes |]; [| done].
  rewrite Hc in Hyes. done.
Qed.

Lemma take_wrapped {A} (c d : A) (l r : list A) :
  take (1 + length l + 1) (c :: l ++ d :: r) = c :: l ++ [d].
Proof.
  simpl. f_equal. rewrite (cons_middle d), app_assoc.
  apply take_app_length'. rewrite length_app. simpl. lia.
Qed.

Lemma inline_code_keeps : keeps inline_code.
Proof.
  intros [| c s] rep len; unfold inline_code; [done |].
  destruct (c =? backtick)%N eqn:Hc; [| done].
  set (body := take_while (fun x => negb (x =? backtick)%N) s).
  destruct body as [| b body'] eqn:Hbody; [done |].
  destruct (drop (length (b :: body')) s) as [| d r] eqn:Hdrop; [done |].
  intros [= <- <-]. split; [lia |].
  pose proof (take_while_drop (fun x => negb (x =? backtick)%N) s) as Hsplit.
  fold body in Hsplit. rewrite Hbody, Hdrop in Hsplit.
  pose proof (take_while_stop (fun x => negb (x =? backtick)%N) s d r) as Hd.
  fold body in Hd. rewrite Hbody in Hd. specialize (Hd Hdrop).
  apply negb_false_iff in Hd.
  change (S (S (length body' + 1))) with (1 + length (b :: body') + 1).
  rewrite <- Hsplit, take_wrapped.
  rewrite filter_content_skip by (by apply backtick_no_content).
  rewrite filter_app.
  rewrite (filter_content_skip d []) by (by apply backtick_no_content).
  by rewrite app_nil_r.
Qed.

Lemma header_try_some (j : nat) (s rep : str) (len : nat) :
  header_try j s = Some (rep, len) →
  rep = [] ∧ ∃ i c, len = i + 1
                    ∧ Forall (fun x => (x =? hash)%N = true) (take i s)
                    ∧ s !! i = Some c ∧ is_space c = true.
Proof.
  induction j as [| j IH]; [done |].
  cbn [header_try].
  destruct (forallb (fun x => (x =? hash)%N) (take (S j) s)
            && (length (take (S j) s) =? S j)
            && from_option is_space false (s !! S j)) eqn:Hcond;
    [| exact IH].
  intros [= <- <-]. split; [reflexivity |].
  apply andb_prop in Hcond as [Hcond Hsp].
  apply andb_prop in Hcond as [Hall _].
  destruct (s !! S j) as [c |] eqn:Hc; [| done].
  exists (S j), c. repeat split; try done.
  rewrite forallb_forall in Hall. apply Forall_forall.
  intros x Hx. apply Hall. by apply list_elem_of_In.
Qed.

Lemma header_keeps : keeps header.
Proof.
  intros s rep len Hm. apply header_try_some in Hm
    as (-> & i & c & -> & Hhash & Hc & Hsp).
  split; [lia |].
  replace (i + 1) with (S i) by lia.
  rewrite (take_S_r _ _ _ Hc), filter_app.
  rewrite no_content.
  2: { eapply Forall_impl; [exact Hhash |]. intros x Hx. simpl in Hx.
       apply N.eqb_eq in Hx as ->. reflexivity. }
  rewrite filter_content_skip by (by apply space_no_content).
  apply sublist_nil_l.
Qed.

Lemma spaces_keeps : keeps spaces.
Proof.
  intros s rep len. unfold spaces.
  destruct (take_while is_space s) as [| b run] eqn:Hrun; [done |].
  intros [= <- <-]. split; [simpl; lia |].
  pose proof (take_while_drop is_space s) as Hsplit.
  pose proof (take_while_all is_space s) as Hall.
  rewrite Hrun in Hsplit, Hall.
  rewrite <- Hsplit, (take_app_length' (b :: run)) by reflexivity.
  rewrite no_content; [apply sublist_nil_l |].
  eapply Forall_impl; [exact Hall |]. intros x Hx. by apply space_no_content.
Qed.

Lemma drop_while_space_content (s : str) :
  filter content (drop_while is_space s) = filter content s.
Proof.
  induction s as [| c s IH]; [reflexivity |].
  simpl. destruct (is_space c) eqn:Hc; [| reflexivity].
  rewrite IH. symmetry. by apply filter_content_skip, space_no_content.
Qed.

Lemma trim_content (s : str) : filter content (trim s) = filter content s.
Proof.
  unfold trim.
  rewrite filter_reverse, drop_while_space_content, filter_reverse,
    drop_while_space_content.
  apply reverse_involutive.
Qed.

Lemma gsub_step (m : matcher) (x s : str) :
  keeps m →
  x `sublist_of` filter content s →
  x `sublist_of` filter content (gsub m s).
Proof. intros Hm Hx. etrans; [exact Hx |]. by apply gsub_keeps. Qed.

Lemma trim_keeps (x s : str) :
  x `sublist_of` filter content s → x `sublist_of` filter content (trim s).
Proof. by rewrite trim_content. Qed.

Lemma content_sublist (x s : str) :
  x `sublist_of` filter content s → x `sublist_of` s.
Proof. intros Hx. etrans; [exact Hx |]. apply sublist_filter. Qed.
End KeptPatterns.

(** The claim of C7 read on the code: every content character of the
    input is found in the output.  The text of a fenced code block is
    deleted with its fences. *)
Lemma code_block_text_deleted :
  filter Voice.content (Js.units "```x```") = Js.units "x"
  ∧ StreamingHandler.cleanForVoice (Js.units "```x```") = []
  ∧ ¬ filter Voice.content (Js.units "```x```")
      `sublist_of` StreamingHandler.cleanForVoice (Js.units "```x```").
Proof.
  split; [by vm_compute |]. split; [by vm_compute |].
  replace (StreamingHandler.cleanForVoice (Js.units "```x```"))
    with (@nil N) by (by vm_compute).
  replace (filter Voice.content (Js.units "```x```"))
    with [120%N] by (by vm_compute).
  intros H. apply sublist_nil_r in H. discriminate.
Qed.

(** For an input in which the normalizer finds no fenced code block and
    no link, every character that is neither white space nor one of the
    stripped or replaced symbols appears, in order, in the output. *)
Theorem cleanForVoice_keeps_content (t : Js.str) :
  Voice.noCodeBlock t →
  Voice.noLink t →
  filter Voice.content t `sublist_of` StreamingHandler.cleanForVoice t.
Proof.
  intros Hcode Hlink. unfold StreamingHandler.cleanForVoice.
  unfold Voice.noLink, Voice.beforeLinks in Hlink.
  unfold Voice.noCodeBlock, Voice.beforeCodeBlocks in *.
  rewrite Hcode in *. rewrite Hlink.
  apply content_sublist, trim_keeps.
  apply gsub_step; [apply spaces_keeps |].
  do 3 (apply gsub_step; [apply lit_keeps; [done | by repeat constructor] |]).
  apply gsub_step.
  { apply class_keeps. intros c Hc.
    apply orb_prop in Hc as [Hc | Hc]; apply N.eqb_eq in Hc as ->; reflexivity. }
  apply gsub_step; [apply header_keeps |].
  apply gsub_step; [apply inline_code_keeps |].
  do 2 (apply gsub_step; [apply lit_keeps; [done | by repeat constructor] |]).
  reflexivity.
Qed.

Lemma cleanForVoice_keeps_content_witness :
  filter Voice.content (Js.units "**Hello** #1")
    `sublist_of` StreamingHandler.cleanForVoice (Js.units "**Hello** #1").
Proof.
  apply (cleanForVoice_keeps_content (Js.units "**Hello** #1")).
  - vm_compute. reflexivity.
  - vm_compute. reflexivity.
Defined.

(** * Further properties of the code *)

(** ** Session registry: ending, counting, framing *)

Section Registry.
Import SessionManager.

Lemma endSession_delete (sid : string) (ss : gmap string Session) :
  endSession sid ss = delete sid ss.
Proof.
  unfold endSession. destruct (ss !! sid) eqn:Hs; [reflexivity |].
  symmetry. by apply delete_id.
Qed.

Lemma addMessage_lookup_ne (sid sid' : string) r c (ss : gmap string Session) :
  sid ≠ sid' → addMessage sid r c ss !! sid' = ss !! sid'.
Proof.
  intros Hne. unfold addMessage.
  destruct (ss !! sid); [by rewrite lookup_insert_ne | reflexivity].
Qed.

Lemma addMessage_lookup (sid : string) r c (ss : gmap string Session) :
  addMessage sid r c ss !! sid
  = (fun s => mkSession (callSid s) (from s) (to s) (startTime s)
                (push_trim (mkMessage r c) (conversationHistory s)))
    <$> ss !! sid.
Proof.
  unfold addMessage. destruct (ss !! sid) as [s |] eqn:Hs; simpl.
  - by rewrite lookup_insert_eq.
  - by rewrite Hs.
Qed.
End Registry.

(** X1.  [endSession] removes the session of the call and nothing else; the
    call count drops by one when there was a session and stays as it is
    otherwise. *)
Theorem endSession_removes_one (sid : string)
    (ss : gmap string SessionManager.Session) :
  SessionManager.getSession sid (SessionManager.endSession sid ss) = None
  ∧ delete sid (SessionManager.endSession sid ss) = delete sid ss
  ∧ SessionManager.getActiveCallCount (SessionManager.endSession sid ss)
    = SessionManager.getActiveCallCount ss
      - match ss !! sid with Some _ => 1 | None => 0 end.
Proof.
  rewrite endSession_delete. unfold SessionManager.getSession,
    SessionManager.getActiveCallCount.
  split; [apply lookup_delete_eq |]. split; [apply delete_delete_eq |].
  rewrite map_size_delete. destruct (ss !! sid); simpl; lia.
Qed.

(** X2.  [createSession] adds one to the call count for a new call identifier
    and leaves the count as it is when it replaces a session. *)
Theorem createSession_count (now : N) (sid f t : string)
    (ss : gmap string SessionManager.Session) :
  SessionManager.getActiveCallCount (SessionManager.createSession now sid f t ss).2
  = match ss !! sid with
    | Some _ => SessionManager.getActiveCallCount ss
    | None => S (SessionManager.getActiveCallCount ss)
    end.
Proof.
  unfold SessionManager.createSession, SessionManager.getActiveCallCount. simpl.
  rewrite map_size_insert. by destruct (ss !! sid).
Qed.

(** X3.  Ending a call right after creating it leaves the registry as it
    would be with the call identifier removed: whatever session was
    stored under it before is gone, the rest is as before. *)
Theorem create_then_end (now : N) (sid f t : string)
    (ss : gmap string SessionManager.Session) :
  SessionManager.endSession sid (SessionManager.createSession now sid f t ss).2
  = delete sid ss.
Proof.
  rewrite endSession_delete. unfold SessionManager.createSession. simpl.
  apply delete_insert_eq.
Qed.

(** X4.  [addMessage] never creates or removes a session, leaves every other
    session alone, and on the session it is aimed at changes the history
    only: call identifier, numbers and start time stay. *)
Theorem addMessage_frame (sid : string) (r : Role) (c : string)
    (ss : gmap string SessionManager.Session) :
  dom (SessionManager.addMessage sid r c ss) = dom ss
  ∧ delete sid (SessionManager.addMessage sid r c ss) = delete sid ss
  ∧ Router.identity <$> SessionManager.addMessage sid r c ss !! sid
    = Router.identity <$> ss !! sid.
Proof.
  split; [| split].
  - unfold SessionManager.addMessage.
    destruct (ss !! sid) as [s |] eqn:Hs; [| reflexivity].
    rewrite dom_insert_L. apply elem_of_dom_2 in Hs.
    apply subseteq_union_1_L. by apply singleton_subseteq_l.
  - unfold SessionManager.addMessage.
    destruct (ss !! sid) as [s |] eqn:Hs; [| reflexivity].
    apply delete_insert_eq.
  - rewrite addMessage_lookup. by destruct (ss !! sid).
Qed.

(** ** Router: a call from setup to end *)

Section Calls.
Import SessionManager MessageHandler.

Lemma truthy_some (sid : string) : sid ≠ "" → truthy (Some sid) = Some sid.
Proof. intros Hne. unfold truthy. by case_decide. Qed.


(** The history after a prompt on a live session. *)
Lemma handlePrompt_live (config : Config)
    (complete : list Message -> LlamaService.Completion)
    (voicePrompt sid : string) (w : World) (s : Session) :
  truthy (wsCallSid w) = Some sid →
  sessions w !! sid = Some s →
  let h := slice_last 20 (conversationHistory s ++ [mkMessage user voicePrompt]) in
  let response :=
    LlamaService.generateResponse (systemPrompt config) complete voicePrompt h in
  handlePrompt config complete voicePrompt w
  = (mkWorld
       (addMessage sid assistant response
          (addMessage sid user voicePrompt (sessions w)))
       (streams w) (wsCallSid w),
     Some (TextMessage response (enableInterruptions config) true))
  ∧ historyOf sid
      (addMessage sid assistant response
         (addMessage sid user voicePrompt (sessions w)))
    = Some (slice_last 20
              (conversationHistory s
               ++ [mkMessage user voicePrompt; mkMessage assistant response])).
Proof.
  intros Hsid Hs h response.
  assert (historyOf sid (addMessage sid user voicePrompt (sessions w)) = Some h)
    as Hh.
  { erewrite historyOf_addMessage
      by (unfold historyOf; rewrite Hs; reflexivity).
    by rewrite push_trim_slice. }
  split.
  - rewrite handlePrompt_at_once. rewrite Hsid. unfold getSession. rewrite Hs.
    cbv zeta. rewrite Hh. reflexivity.
  - erewrite historyOf_addMessage by exact Hh.
    rewrite push_trim_slice. unfold h. rewrite slice_last_app_l.
    by rewrite <- app_assoc.
Qed.
End Calls.

Section PromptPhases.
Import SessionManager MessageHandler Router.


Lemma world_eta (w : World) : mkWorld (sessions w) (streams w) (wsCallSid w) = w.
Proof. by destruct w. Qed.
End PromptPhases.



(** X6.  A whole call on one connection: Setup, a prompt, End, then a late
    prompt.  Whatever was stored before, exactly one reply goes out, the
    text for the first prompt, marked last; the late prompt is dropped,
    the session is gone and the connection has no call identifier. *)
Theorem call_from_setup_to_end (config : MessageHandler.Config)
    (complete : list Message -> LlamaService.Completion)
    (n1 n2 n3 n4 : N) (sid f t p q : string) (w : MessageHandler.World) :
  sid ≠ "" →
  (Router.handleEvents config complete
     [(n1, MessageHandler.SetupMessage sid f t);
      (n2, MessageHandler.PromptMessage p);
      (n3, MessageHandler.EndMessage);
      (n4, MessageHandler.PromptMessage q)] w).2
  = [MessageHandler.TextMessage
       (LlamaService.generateResponse (MessageHandler.systemPrompt config)
          complete p [mkMessage user p])
       (MessageHandler.enableInterruptions config) true]
  ∧ (Router.handleEvents config complete
       [(n1, MessageHandler.SetupMessage sid f t);
        (n2, MessageHandler.PromptMessage p);
        (n3, MessageHandler.EndMessage);
        (n4, MessageHandler.PromptMessage q)] w).1
    = MessageHandler.mkWorld (delete sid (MessageHandler.sessions w))
        (MessageHandler.streams w) None.
Proof.
  intros Hne.
  set (w1 := MessageHandler.mkWorld
               (<[sid := SessionManager.mkSession sid f t n1 []]>
                  (MessageHandler.sessions w))
               (MessageHandler.streams w) (Some sid)).
  assert (MessageHandler.handleMessage config complete n1
            (MessageHandler.SetupMessage sid f t) w = (w1, None)) as H1
    by reflexivity.
  destruct (handlePrompt_live config complete p sid w1
              (SessionManager.mkSession sid f t n1 []))
    as [H2 _].
  { simpl. by apply truthy_some. }
  { simpl. apply lookup_insert_eq. }
  cbv zeta in H2. simpl SessionManager.conversationHistory in H2.
  change (slice_last 20 ([] ++ [mkMessage user p])) with [mkMessage user p] in H2.
  set (r := LlamaService.generateResponse (MessageHandler.systemPrompt config)
              complete p [mkMessage user p]) in *.
  set (w2 := MessageHandler.mkWorld
               (SessionManager.addMessage sid assistant r
                  (SessionManager.addMessage sid user p (MessageHandler.sessions w1)))
               (MessageHandler.streams w1) (MessageHandler.wsCallSid w1)) in *.
  set (w3 := MessageHandler.mkWorld (delete sid (MessageHandler.sessions w))
               (MessageHandler.streams w) None).
  assert (MessageHandler.handleMessage config complete n3
            MessageHandler.EndMessage w2 = (w3, None)) as H3.
  { change (MessageHandler.handleMessage config complete n3
              MessageHandler.EndMessage w2)
      with (MessageHandler.handleEnd w2).
    unfold MessageHandler.handleEnd, w2, w1.
    cbn [MessageHandler.wsCallSid MessageHandler.sessions MessageHandler.streams].
    rewrite (truthy_some sid Hne). rewrite endSession_delete. unfold w3.
    cbn [MessageHandler.wsCallSid MessageHandler.sessions MessageHandler.streams].
    f_equal. f_equal.
    apply map_eq. intros k. destruct (decide (k = sid)) as [-> | Hk].
    - by rewrite !lookup_delete_eq.
    - rewrite !lookup_delete_ne by done.
      rewrite !addMessage_lookup_ne by done.
      by rewrite lookup_insert_ne. }
  assert (MessageHandler.handleMessage config complete n4
            (MessageHandler.PromptMessage q) w3 = (w3, None)) as H4
    by reflexivity.
  cbn [Router.handleEvents].
  rewrite H1.
  change (MessageHandler.handleMessage config complete n2
            (MessageHandler.PromptMessage p) w1)
    with (MessageHandler.handlePrompt config complete p w1).
  rewrite H2, H3, H4. by split.
Qed.

Lemma call_from_setup_to_end_witness :
  (Router.handleEvents exampleConfig exampleBackend
     [(1%N, MessageHandler.SetupMessage "CA1" "+1" "+2");
      (2%N, MessageHandler.PromptMessage "What's the weather?");
      (3%N, MessageHandler.EndMessage);
      (4%N, MessageHandler.PromptMessage "Hello?")] idleWorld).2
  = [MessageHandler.TextMessage
       (LlamaService.generateResponse
          (MessageHandler.systemPrompt exampleConfig) exampleBackend
          "What's the weather?" [mkMessage user "What's the weather?"])
       (MessageHandler.enableInterruptions exampleConfig) true]
  ∧ (Router.handleEvents exampleConfig exampleBackend
       [(1%N, MessageHandler.SetupMessage "CA1" "+1" "+2");
        (2%N, MessageHandler.PromptMessage "What's the weather?");
        (3%N, MessageHandler.EndMessage);
        (4%N, MessageHandler.PromptMessage "Hello?")] idleWorld).1
    = MessageHandler.mkWorld (delete "CA1" (MessageHandler.sessions idleWorld))
        (MessageHandler.streams idleWorld) None.
Proof.
  apply (call_from_setup_to_end exampleConfig exampleBackend 1 2 3 4
           "CA1" "+1" "+2" "What's the weather?" "Hello?" idleWorld).
  discriminate.
Defined.

(** X7.  Only a Prompt or a Dtmf event is ever answered: Setup, Interrupt,
    End, Error and unrecognized events produce no reply, in any state. *)
Theorem only_prompt_and_dtmf_reply (config : MessageHandler.Config)
    (complete : list Message -> LlamaService.Completion) (now : N)
    (message : MessageHandler.IncomingMessage) (w : MessageHandler.World) :
  match message with
  | MessageHandler.PromptMessage _ | MessageHandler.DtmfMessage _ => True
  | _ => (MessageHandler.handleMessage config complete now message w).2 = None
  end.
Proof.
  destruct message; simpl; try done.
  - unfold MessageHandler.handleInterrupt.
    by destruct (MessageHandler.truthy (MessageHandler.wsCallSid w)).
  - unfold MessageHandler.handleEnd.
    by destruct (MessageHandler.truthy (MessageHandler.wsCallSid w)).
Qed.

(** X8.  Once End has been handled the connection has no call identifier
    and its session is gone; a Prompt, an Interrupt, a second End, an
    Error or an unrecognized event that follows changes nothing and is
    not answered. *)
Theorem nothing_after_end (config : MessageHandler.Config)
    (complete : list Message -> LlamaService.Completion) (now : N)
    (message : MessageHandler.IncomingMessage) (w : MessageHandler.World) :
  MessageHandler.wsCallSid (MessageHandler.handleEnd w).1
  = (if MessageHandler.truthy (MessageHandler.wsCallSid w) is Some _ then None
     else MessageHandler.wsCallSid w)
  ∧ liveSession (MessageHandler.handleEnd w).1 = None
  ∧ match message with
    | MessageHandler.SetupMessage _ _ _ | MessageHandler.DtmfMessage _ => True
    | _ => MessageHandler.handleMessage config complete now message
             (MessageHandler.handleEnd w).1
           = ((MessageHandler.handleEnd w).1, None)
    end.
Proof.
  assert (MessageHandler.truthy
            (MessageHandler.wsCallSid (MessageHandler.handleEnd w).1) = None)
    as Hgone.
  { unfold MessageHandler.handleEnd.
    destruct (MessageHandler.truthy (MessageHandler.wsCallSid w)) eqn:E;
      [reflexivity | exact E]. }
  split; [| split].
  - unfold MessageHandler.handleEnd.
    by destruct (MessageHandler.truthy (MessageHandler.wsCallSid w)).
  - unfold liveSession. by rewrite Hgone.
  - destruct message; simpl; try done.
    + rewrite handlePrompt_at_once. by rewrite Hgone.
    + unfold MessageHandler.handleInterrupt. by rewrite Hgone.
    + unfold MessageHandler.handleEnd at 1. by rewrite Hgone.
Qed.

(** ** Router: what an event can touch *)

(** X9.  An event handled on a connection leaves every session alone except
    the one of the connection's own call and, for a Setup, the one it
    creates. *)
Theorem other_sessions_untouched (config : MessageHandler.Config)
    (complete : list Message -> LlamaService.Completion) (now : N)
    (message : MessageHandler.IncomingMessage) (w : MessageHandler.World)
    (other : string) :
  MessageHandler.truthy (MessageHandler.wsCallSid w) ≠ Some other →
  (∀ f t, message ≠ MessageHandler.SetupMessage other f t) →
  MessageHandler.sessions
    (MessageHandler.handleMessage config complete now message w).1 !! other
  = MessageHandler.sessions w !! other.
Proof.
  intros Hws Hsetup. destruct message as [sid f t | p | | d | | e |]; simpl.
  - apply lookup_insert_ne. intros ->. by apply (Hsetup f t).
  - rewrite handlePrompt_at_once.
    destruct (MessageHandler.truthy (MessageHandler.wsCallSid w)) as [sid |];
      [| reflexivity].
    destruct (SessionManager.getSession sid (MessageHandler.sessions w));
      [| reflexivity].
    simpl. rewrite !addMessage_lookup_ne by congruence. reflexivity.
  - unfold MessageHandler.handleInterrupt.
    by destruct (MessageHandler.truthy (MessageHandler.wsCallSid w)).
  - unfold MessageHandler.handleDtmf.
    destruct (negb (MessageHandler.enableDtmf config)); [reflexivity |].
    by case_decide.
  - unfold MessageHandler.handleEnd.
    destruct (MessageHandler.truthy (MessageHandler.wsCallSid w)) as [sid |];
      [| reflexivity].
    simpl. rewrite endSession_delete. apply lookup_delete_ne. congruence.
  - reflexivity.
  - reflexivity.
Qed.

Lemma other_sessions_untouched_witness :
  MessageHandler.sessions
    (MessageHandler.handleMessage exampleConfig exampleBackend 0
       (MessageHandler.PromptMessage "hi")
       (MessageHandler.mkWorld
          (<["CA2" := SessionManager.mkSession "CA2" "+3" "+4" 0 []]> freshSessions)
          LlamaService.noStreams (Some "CA1"))).1 !! "CA2"
  = MessageHandler.sessions
      (MessageHandler.mkWorld
         (<["CA2" := SessionManager.mkSession "CA2" "+3" "+4" 0 []]> freshSessions)
         LlamaService.noStreams (Some "CA1")) !! "CA2".
Proof.
  apply (other_sessions_untouched exampleConfig exampleBackend 0
           (MessageHandler.PromptMessage "hi")
           (MessageHandler.mkWorld
              (<["CA2" := SessionManager.mkSession "CA2" "+3" "+4" 0 []]>
                 freshSessions)
              LlamaService.noStreams (Some "CA1")) "CA2").
  - simpl. discriminate.
  - intros f t. discriminate.
Defined.

Section KeptRegistry.
Import SessionManager MessageHandler Router.

Lemma push_trim_length (m : Message) (h : list Message) :
  length (push_trim m h) ≤ 20.
Proof. rewrite push_trim_slice. apply slice_last_length. Qed.

Lemma addMessage_wellKept sid r c (ss : gmap string Session) :
  wellKept ss → wellKept (addMessage sid r c ss).
Proof.
  intros Hss. unfold addMessage.
  destruct (ss !! sid) as [s |] eqn:Hs; [| exact Hss].
  apply map_Forall_insert_2; [| exact Hss].
  simpl. split; [apply (Hss sid s Hs) | apply push_trim_length].
Qed.

Lemma handleMessage_wellKept config complete now message (w : World) :
  wellKept (sessions w) →
  wellKept (sessions (handleMessage config complete now message w).1).
Proof.
  intros Hw. destruct message as [sid f t | p | | d | | e |]; simpl; try done.
  - apply map_Forall_insert_2; [| exact Hw]. simpl. split; [done | lia].
  - rewrite handlePrompt_at_once.
    destruct (truthy (wsCallSid w)) as [sid |]; [| exact Hw].
    destruct (getSession sid (sessions w)); [| exact Hw].
    simpl. by do 2 apply addMessage_wellKept.
  - unfold handleInterrupt. by destruct (truthy (wsCallSid w)).
  - unfold handleDtmf. destruct (negb (enableDtmf config)); [exact Hw |].
    by case_decide.
  - unfold handleEnd. destruct (truthy (wsCallSid w)) as [sid |]; [| exact Hw].
    simpl. rewrite endSession_delete. by apply map_Forall_delete.
Qed.

Lemma handleEvents_wellKept config complete events :
  ∀ w : World,
    wellKept (sessions w) →
    wellKept (sessions (handleEvents config complete events w).1).
Proof.
  induction events as [| [now message] events IH]; intros w Hw; [exact Hw |].
  cbn [handleEvents].
  pose proof (handleMessage_wellKept config complete now message w Hw) as Hstep.
  destruct (handleMessage config complete now message w) as [w' reply].
  specialize (IH w' Hstep).
  destruct (handleEvents config complete events w') as [w'' replies].
  exact IH.
Qed.
End KeptRegistry.

(** X10.  Whatever events a connection receives, in whatever order, the
    registry stays in order: every session is stored under its own call
    identifier and no history is longer than 20 entries. *)
Theorem registry_kept_by_events (config : MessageHandler.Config)
    (complete : list Message -> LlamaService.Completion)
    (events : list (N * MessageHandler.IncomingMessage))
    (w : MessageHandler.World) :
  Router.wellKept (MessageHandler.sessions w) →
  Router.wellKept
    (MessageHandler.sessions (Router.handleEvents config complete events w).1).
Proof. apply handleEvents_wellKept. Qed.

Lemma registry_kept_by_events_witness :
  Router.wellKept
    (MessageHandler.sessions
       (Router.handleEvents exampleConfig exampleBackend
          [(1%N, MessageHandler.SetupMessage "CA1" "+1" "+2");
           (2%N, MessageHandler.PromptMessage "hi");
           (3%N, MessageHandler.DtmfMessage "5")] idleWorld).1).
Proof.
  apply (registry_kept_by_events exampleConfig exampleBackend
           [(1%N, MessageHandler.SetupMessage "CA1" "+1" "+2");
            (2%N, MessageHandler.PromptMessage "hi");
            (3%N, MessageHandler.DtmfMessage "5")] idleWorld).
  apply map_Forall_empty.
Defined.

(** X11.  A Setup whose call identifier is the empty string stores a session
    the connection cannot use: the identifier on the connection counts
    as missing, so the prompt that follows is dropped and End removes
    nothing; the session stays in the registry. *)
Theorem empty_call_identifier_strands_session (config : MessageHandler.Config)
    (complete : list Message -> LlamaService.Completion) (n1 n2 n3 : N)
    (f t p : string) (w : MessageHandler.World) :
  Router.handleEvents config complete
    [(n1, MessageHandler.SetupMessage "" f t);
     (n2, MessageHandler.PromptMessage p);
     (n3, MessageHandler.EndMessage)] w
  = (MessageHandler.mkWorld
       (<["" := SessionManager.mkSession "" f t n1 []]> (MessageHandler.sessions w))
       (MessageHandler.streams w) (Some ""),
     []).
Proof. reflexivity. Qed.

(** ** Completion service: shape of a request, answers *)

Lemma no_system_left (l : list Message) :
  filter (fun m => role m = system) (filter (fun e => role e ≠ system) l) = [].
Proof.
  induction l as [| e l IH]; [reflexivity |].
  rewrite filter_cons. destruct (decide (role e ≠ system)) as [Hne | Heq];
    [| exact IH].
  rewrite filter_cons. destruct (decide (role e = system)); [done | exact IH].
Qed.

(** X12.  Whatever history it is handed, [buildMessages] sends between 2 and
    12 messages, the system prompt first and the user prompt last, and
    the messages in between are never system messages: a system entry in
    the history does not reach the backend. *)
Theorem buildMessages_bounds (systemPrompt userPrompt : string)
    (h : list Message) :
  2 ≤ length (LlamaService.buildMessages systemPrompt userPrompt h) ≤ 12
  ∧ head (LlamaService.buildMessages systemPrompt userPrompt h)
    = Some (mkMessage system systemPrompt)
  ∧ last (LlamaService.buildMessages systemPrompt userPrompt h)
    = Some (mkMessage user userPrompt)
  ∧ length (filter (fun m => role m = system)
              (LlamaService.buildMessages systemPrompt userPrompt h)) = 1.
Proof.
  rewrite buildMessages_shape.
  set (mid := filter (fun e => role e ≠ system) (slice_last 10 h)).
  assert (length mid ≤ 10) as Hmid.
  { unfold mid. etrans; [apply length_filter |]. apply slice_last_length. }
  assert (filter (fun m => role m = system) mid = []) as Hnone
    by apply no_system_left.
  split; [| split; [| split]].
  - simpl. rewrite length_app. simpl. lia.
  - reflexivity.
  - rewrite app_comm_cons. apply last_snoc.
  - rewrite filter_cons. simpl. rewrite filter_app, Hnone. reflexivity.
Qed.

(** X13.  [generateResponse] hands back the backend's content as it is when
    there is one; without usable content, or when the backend throws,
    whatever the error, the answer is a non-empty apology. *)
Theorem generateResponse_never_silent (systemPrompt userPrompt : string)
    (complete : list Message -> LlamaService.Completion) (h : list Message) :
  match complete (LlamaService.buildMessages systemPrompt userPrompt h) with
  | LlamaService.ContentString s | LlamaService.ContentText s =>
      LlamaService.generateResponse systemPrompt complete userPrompt h = s
  | LlamaService.ContentNone | LlamaService.Throws _ =>
      String.prefix "I apologize, but "
        (LlamaService.generateResponse systemPrompt complete userPrompt h)
      = true
  end.
Proof.
  unfold LlamaService.generateResponse.
  destruct (complete _) as [s | s | | name]; try reflexivity.
  repeat case_decide; reflexivity.
Qed.

(** ** Completion service: cancelling and ending streams *)

Section Cancel.
Import LlamaService.

Lemma streamToken_after_cancel (sid : string) (ref : nat) (content : Js.str)
    (st : Streams) :
  activeStreams st !! sid = Some ref →
  streamToken ref content (cancelStream sid st) = [].
Proof.
  intros Hreg. unfold cancelStream. rewrite Hreg.
  unfold streamToken. simpl. rewrite list_lookup_alter_eq.
  by destruct (controllers st !! ref).
Qed.

Lemma cancelStream_unregisters (sid : string) (st : Streams) :
  activeStreams (cancelStream sid st) !! sid = None.
Proof.
  unfold cancelStream. destruct (activeStreams st !! sid) eqn:Hreg; [| exact Hreg].
  simpl. apply lookup_delete_eq.
Qed.

Lemma cancelStream_absent (sid : string) (st : Streams) :
  activeStreams st !! sid = None → cancelStream sid st = st.
Proof. unfold cancelStream. by intros ->. Qed.
End Cancel.

(** X14.  After [cancelStream] the stream that was registered for the session
    hands no further chunk to [onChunk], whatever tokens still arrive;
    the session has no registered handle any more, the handles of other
    sessions are as before, and cancelling again changes nothing. *)
Theorem cancelStream_silences (sid : string) (ref : nat) (content : Js.str)
    (st : LlamaService.Streams) :
  LlamaService.activeStreams st !! sid = Some ref →
  LlamaService.streamToken ref content (LlamaService.cancelStream sid st) = []
  ∧ LlamaService.activeStreams (LlamaService.cancelStream sid st) !! sid = None
  ∧ delete sid (LlamaService.activeStreams (LlamaService.cancelStream sid st))
    = delete sid (LlamaService.activeStreams st)
  ∧ LlamaService.cancelStream sid (LlamaService.cancelStream sid st)
    = LlamaService.cancelStream sid st.
Proof.
  intros Hreg. split; [by apply streamToken_after_cancel |].
  split; [apply cancelStream_unregisters |]. split.
  - unfold LlamaService.cancelStream. rewrite Hreg. simpl.
    apply delete_delete_eq.
  - apply cancelStream_absent, cancelStream_unregisters.
Qed.

Lemma cancelStream_silences_witness :
  LlamaService.streamToken 0 (Js.units "Hello there.")
    (LlamaService.cancelStream "CA1"
       (LlamaService.run [LlamaService.Start "CA1"])) = []
  ∧ LlamaService.activeStreams
      (LlamaService.cancelStream "CA1"
         (LlamaService.run [LlamaService.Start "CA1"])) !! "CA1" = None
  ∧ delete "CA1"
      (LlamaService.activeStreams
         (LlamaService.cancelStream "CA1"
            (LlamaService.run [LlamaService.Start "CA1"])))
    = delete "CA1"
        (LlamaService.activeStreams (LlamaService.run [LlamaService.Start "CA1"]))
  ∧ LlamaService.cancelStream "CA1"
      (LlamaService.cancelStream "CA1"
         (LlamaService.run [LlamaService.Start "CA1"]))
    = LlamaService.cancelStream "CA1"
        (LlamaService.run [LlamaService.Start "CA1"]).
Proof.
  apply (cancelStream_silences "CA1" 0 (Js.units "Hello there.")
           (LlamaService.run [LlamaService.Start "CA1"])).
  reflexivity.
Defined.

(** X15.  An Interrupt on a connection whose call has a registered stream is
    not answered, leaves sessions and connection as they are, and
    silences that stream: no token arriving afterwards reaches
    [onChunk]. *)
Theorem interrupt_silences_stream (config : MessageHandler.Config)
    (complete : list Message -> LlamaService.Completion) (now : N)
    (sid : string) (ref : nat) (content : Js.str) (w : MessageHandler.World) :
  MessageHandler.truthy (MessageHandler.wsCallSid w) = Some sid →
  LlamaService.activeStreams (MessageHandler.streams w) !! sid = Some ref →
  (MessageHandler.handleMessage config complete now
     MessageHandler.InterruptMessage w).2 = None
  ∧ MessageHandler.sessions
      (MessageHandler.handleMessage config complete now
         MessageHandler.InterruptMessage w).1
    = MessageHandler.sessions w
  ∧ MessageHandler.wsCallSid
      (MessageHandler.handleMessage config complete now
         MessageHandler.InterruptMessage w).1
    = MessageHandler.wsCallSid w
  ∧ LlamaService.streamToken ref content
      (MessageHandler.streams
         (MessageHandler.handleMessage config complete now
            MessageHandler.InterruptMessage w).1) = [].
Proof.
  intros Hsid Hreg. simpl. unfold MessageHandler.handleInterrupt.
  rewrite Hsid. simpl. repeat split.
  by apply streamToken_after_cancel.
Qed.

Lemma interrupt_silences_stream_witness :
  (MessageHandler.handleMessage exampleConfig exampleBackend 0
     MessageHandler.InterruptMessage
     (MessageHandler.mkWorld freshSessions
        (LlamaService.run [LlamaService.Start "CA1"]) (Some "CA1"))).2 = None
  ∧ MessageHandler.sessions
      (MessageHandler.handleMessage exampleConfig exampleBackend 0
         MessageHandler.InterruptMessage
         (MessageHandler.mkWorld freshSessions
            (LlamaService.run [LlamaService.Start "CA1"]) (Some "CA1"))).1
    = MessageHandler.sessions
        (MessageHandler.mkWorld freshSessions
           (LlamaService.run [LlamaService.Start "CA1"]) (Some "CA1"))
  ∧ MessageHandler.wsCallSid
      (MessageHandler.handleMessage exampleConfig exampleBackend 0
         MessageHandler.InterruptMessage
         (MessageHandler.mkWorld freshSessions
            (LlamaService.run [LlamaService.Start "CA1"]) (Some "CA1"))).1
    = MessageHandler.wsCallSid
        (MessageHandler.mkWorld freshSessions
           (LlamaService.run [LlamaService.Start "CA1"]) (Some "CA1"))
  ∧ LlamaService.streamToken 0 (Js.units "Hello there.")
      (MessageHandler.streams
         (MessageHandler.handleMessage exampleConfig exampleBackend 0
            MessageHandler.InterruptMessage
            (MessageHandler.mkWorld freshSessions
               (LlamaService.run [LlamaService.Start "CA1"]) (Some "CA1"))).1)
    = [].
Proof.
  apply (interrupt_silences_stream exampleConfig exampleBackend 0 "CA1" 0
           (Js.units "Hello there.")
           (MessageHandler.mkWorld freshSessions
              (LlamaService.run [LlamaService.Start "CA1"]) (Some "CA1"))).
  - reflexivity.
  - reflexivity.
Defined.

Section RegisteredRunning.
Import LlamaService StreamRegistry.

Lemma registeredRunning_step (st : Streams) (o : Op) :
  registeredRunning st → registeredRunning (step st o).
Proof.
  intros Hst. destruct st as [cs am]. destruct o as [sid | ref | sid]; simpl.
  - (* Start *)
    unfold startStream. simpl. intros k r Hk. simpl in *.
    apply lookup_insert_Some in Hk as [[<- <-] | [Hne Hk]].
    + exists (mkStream sid false false).
      split; [by apply list_lookup_middle | done].
    + destruct (Hst k r Hk) as (s & Hs & Hrest). simpl in Hs.
      exists s. split; [by apply lookup_app_l_Some | exact Hrest].
  - (* Finish *)
    unfold finishStream. simpl.
    destruct (cs !! ref) as [s |] eqn:Href; [| exact Hst].
    destruct (finished s) eqn:Hfin; [exact Hst |].
    intros k r Hk. simpl in *.
    apply lookup_delete_Some in Hk as [Hne Hk].
    destruct (Hst k r Hk) as (s' & Hs' & Hsid & Hrest). simpl in Hs'.
    exists s'. split; [| done].
    rewrite list_lookup_insert_ne; [exact Hs' |].
    intros ->. rewrite Href in Hs'. injection Hs' as ->. congruence.
  - (* Cancel *)
    unfold cancelStream. simpl.
    destruct (am !! sid) as [ref |] eqn:Hreg; [| exact Hst].
    intros k r Hk. simpl in *.
    apply lookup_delete_Some in Hk as [Hne Hk].
    destruct (Hst k r Hk) as (s' & Hs' & Hsid & Hrest). simpl in Hs'.
    destruct (Hst sid ref Hreg) as (s & Hs & Hsid0 & _). simpl in Hs.
    exists s'. split; [| done].
    rewrite list_lookup_alter_ne; [exact Hs' |].
    intros ->. rewrite Hs in Hs'. injection Hs' as ->. congruence.
Qed.

Lemma registeredRunning_foldl (ops : list Op) :
  ∀ st, registeredRunning st → registeredRunning (foldl step st ops).
Proof.
  induction ops as [| o ops IH]; intros st Hst; [exact Hst |].
  simpl. apply IH. by apply registeredRunning_step.
Qed.
End RegisteredRunning.

(** X16.  Whatever streams are started, ended and cancelled, in whatever
    order, a handle registered for a session always belongs to a call of
    that session that is still running and has not been aborted: the
    registry never keeps a stale handle. *)
Theorem registry_holds_running_streams (ops : list LlamaService.Op) :
  StreamRegistry.registeredRunning (LlamaService.run ops).
Proof.
  apply registeredRunning_foldl. intros k r Hk. simpl in Hk.
  by rewrite lookup_empty in Hk.
Qed.

(** X17.  A stream that ran to its end leaves no handle behind: after its
    [finally] block the session has no registered stream, the call is no
    longer outstanding, and a [cancelStream] that comes late finds
    nothing to abort. *)
Theorem finished_stream_unregistered (sid : string) (st : LlamaService.Streams) :
  LlamaService.activeStreams
    (LlamaService.finishStream (LlamaService.startStream sid st).1
       (LlamaService.startStream sid st).2) !! sid = None
  ∧ LlamaService.outstanding sid
      (LlamaService.finishStream (LlamaService.startStream sid st).1
         (LlamaService.startStream sid st).2)
    = LlamaService.outstanding sid st
  ∧ LlamaService.cancelStream sid
      (LlamaService.finishStream (LlamaService.startStream sid st).1
         (LlamaService.startStream sid st).2)
    = LlamaService.finishStream (LlamaService.startStream sid st).1
        (LlamaService.startStream sid st).2.
Proof.
  destruct st as [cs am].
  assert (LlamaService.finishStream
            (LlamaService.startStream sid (LlamaService.mkStreams cs am)).1
            (LlamaService.startStream sid (LlamaService.mkStreams cs am)).2
          = LlamaService.mkStreams
              (cs ++ [LlamaService.mkStream sid false true])
              (delete sid am)) as ->.
  { unfold LlamaService.startStream, LlamaService.finishStream. simpl.
    rewrite list_lookup_middle by reflexivity. simpl.
    f_equal.
    - rewrite insert_app_r_alt by lia. by rewrite Nat.sub_diag.
    - apply delete_insert_eq. }
  split; [apply lookup_delete_eq |]. split.
  - rewrite outstanding_app.
    unfold LlamaService.outstanding at 2. simpl.
    rewrite andb_false_r. by rewrite app_nil_r.
  - apply cancelStream_absent. simpl. apply lookup_delete_eq.
Qed.

(** ** Normalizer: what the output never holds *)

Section Output.
Import Js StreamingHandler Speech.

(** What holds of every character of the text holds of every character
    of the replaced text, when the replacements keep it. *)
Lemma gsub_Forall_bounded (P : N → Prop) (m : matcher) (n : nat) :
  (∀ s rep len, m s = Some (rep, len) → Forall P s → Forall P rep) →
  ∀ s, length s ≤ n → Forall P s → Forall P (gsub m s).
Proof.
  intros Hm. induction n as [| n IH]; intros [| c s] Hlen Hs; simpl in Hlen;
    try done; try lia.
  rewrite gsub_cons.
  destruct (m (c :: s)) as [[rep len] |] eqn:Hmatch.
  - apply Forall_app. split; [by eapply Hm |].
    apply IH; [rewrite length_drop; lia |].
    apply Forall_drop. by apply Forall_cons_1 in Hs as [_ Hs].
  - apply Forall_cons_1 in Hs as [Hc Hs]. constructor; [exact Hc |].
    apply IH; [lia | exact Hs].
Qed.

Lemma gsub_Forall (P : N → Prop) (m : matcher) (s : str) :
  (∀ s rep len, m s = Some (rep, len) → Forall P s → Forall P rep) →
  Forall P s → Forall P (gsub m s).
Proof. intros Hm. by apply (gsub_Forall_bounded P m (length s)). Qed.

Lemma take_while_Forall (P : N → Prop) (p : N → bool) (s : str) :
  Forall P s → Forall P (take_while p s).
Proof.
  induction 1 as [| c s Hc Hs IH]; simpl; [constructor |].
  destruct (p c); by constructor.
Qed.

Lemma drop_while_Forall (P : N → Prop) (p : N → bool) (s : str) :
  Forall P s → Forall P (drop_while p s).
Proof.
  induction 1 as [| c s Hc Hs IH]; simpl; [constructor |].
  destruct (p c); [exact IH | by constructor].
Qed.

Lemma trim_Forall (P : N → Prop) (s : str) : Forall P s → Forall P (trim s).
Proof.
  intros Hs. unfold trim.
  apply Forall_reverse, drop_while_Forall, Forall_reverse.
  by apply drop_while_Forall.
Qed.

Lemma lit_passes (P : N → Prop) (pat rep : str) :
  Forall P rep →
  ∀ s r len, lit pat rep s = Some (r, len) → Forall P s → Forall P r.
Proof.
  intros Hrep s r len. unfold lit. destruct (starts_with pat s); [| done].
  by intros [= <- <-] _.
Qed.

Lemma class_passes (P : N → Prop) (p : N → bool) (rep : str) :
  Forall P rep →
  ∀ s r len, class p rep s = Some (r, len) → Forall P s → Forall P r.
Proof.
  intros Hrep [| c s] r len; unfold class; [done |].
  destruct (p c); [| done]. by intros [= <- <-] _.
Qed.

Lemma code_block_passes (P : N → Prop) :
  ∀ s r len, code_block s = Some (r, len) → Forall P s → Forall P r.
Proof.
  intros s r len. unfold code_block.
  destruct (starts_with fence s); [| done].
  destruct (find_fence (drop 3 s)); [| done].
  intros [= <- <-] _. constructor.
Qed.

Lemma inline_code_passes (P : N → Prop) :
  ∀ s r len, inline_code s = Some (r, len) → Forall P s → Forall P r.
Proof.
  intros [| c s] r len; unfold inline_code; [done |].
  destruct (c =? backtick)%N; [| done].
  set (body := take_while (fun x => negb (x =? backtick)%N) s).
  intros Hm Hs. apply Forall_cons_1 in Hs as [_ Hs].
  assert (Forall P body) as Hbody by (by apply take_while_Forall).
  destruct body as [| b body']; [done |].
  destruct (drop (length (b :: body')) s); [done |].
  by injection Hm as <- <-.
Qed.

Lemma header_passes (P : N → Prop) :
  ∀ s r len, header s = Some (r, len) → Forall P s → Forall P r.
Proof.
  intros s r len Hm _. apply header_try_some in Hm as [-> _]. constructor.
Qed.

Lemma link_passes (P : N → Prop) :
  ∀ s r len, link s = Some (r, len) → Forall P s → Forall P r.
Proof.
  intros [| c s] r len; unfold link; [done |].
  destruct (c =? lbracket)%N; [| done].
  set (text := take_while (fun x => negb (x =? rbracket)%N) s).
  intros Hm Hs. apply Forall_cons_1 in Hs as [_ Hs].
  assert (Forall P text) as Htext by (by apply take_while_Forall).
  destruct text as [| b text']; [done |].
  destruct (drop (length (b :: text')) s) as [| c1 [| p s2]]; try done.
  destruct (p =? lparen)%N; [| done].
  destruct (take_while (fun x => negb (x =? rparen)%N) s2) as [| u url];
    [done |].
  destruct (drop (length (u :: url)) s2); [done |].
  by injection Hm as <- <-.
Qed.

Lemma spaces_passes (P : N → Prop) :
  P space →
  ∀ s r len, spaces s = Some (r, len) → Forall P s → Forall P r.
Proof.
  intros Hsp s r len. unfold spaces.
  destruct (take_while is_space s); [done |].
  intros [= <- <-] _. by repeat constructor.
Qed.

(** A one-character pattern leaves no occurrence of its character. *)
Lemma lit_gone (x : N) (rep s : str) :
  Forall (fun c => c ≠ x) rep → Forall (fun c => c ≠ x) (gsub (lit [x] rep) s).
Proof.
  intros Hrep. induction s as [| c s IH]; [constructor |].
  rewrite gsub_cons. unfold lit. cbn [starts_with length].
  rewrite andb_true_r.
  destruct (x =? c)%N eqn:E.
  - simpl. apply Forall_app. by split.
  - constructor; [| exact IH]. intros ->. by rewrite N.eqb_refl in E.
Qed.

Lemma class_gone (p : N → bool) (s : str) :
  Forall (fun c => p c = false) (gsub (class p []) s).
Proof.
  induction s as [| c s IH]; [constructor |].
  rewrite gsub_cons. unfold class.
  destruct (p c) eqn:E; [exact IH | by constructor].
Qed.
End Output.

Section OutputSymbols.
Import Js StreamingHandler Speech.

Ltac differs :=
  first [ reflexivity
        | let H := fresh in intros H; vm_compute in H; discriminate H ].

Ltac replaced_ok := repeat constructor; differs.

(** One step of the pipeline that hands a property of the characters
    through. *)
Ltac pass :=
  first
    [ apply trim_Forall
    | apply gsub_Forall;
      [ first
          [ apply spaces_passes; differs
          | apply lit_passes; replaced_ok
          | apply class_passes; constructor
          | apply link_passes
          | apply header_passes
          | apply inline_code_passes
          | apply code_block_passes ] | ] ].

Lemma cleanForVoice_no_star (t : str) :
  Forall (fun c => c ≠ star) (cleanForVoice t).
Proof.
  unfold cleanForVoice. do 10 pass. apply lit_gone. constructor.
Qed.

Lemma cleanForVoice_no_angle (t : str) :
  Forall (fun c => ((c =? 60) || (c =? 62))%N = false) (cleanForVoice t).
Proof.
  unfold cleanForVoice. do 5 pass. apply class_gone.
Qed.

Lemma cleanForVoice_no_ampersand (t : str) :
  Forall (fun c => c ≠ 38%N) (cleanForVoice t).
Proof.
  unfold cleanForVoice. do 4 pass.
  change (units "&") with [38%N]. apply lit_gone. replaced_ok.
Qed.

Lemma cleanForVoice_no_at (t : str) :
  Forall (fun c => c ≠ 64%N) (cleanForVoice t).
Proof.
  unfold cleanForVoice. do 3 pass.
  change (units "@") with [64%N]. apply lit_gone. replaced_ok.
Qed.

Lemma cleanForVoice_no_hash (t : str) :
  Forall (fun c => c ≠ 35%N) (cleanForVoice t).
Proof.
  unfold cleanForVoice. do 2 pass.
  change (units "#") with [35%N]. apply lit_gone. replaced_ok.
Qed.

Lemma unspoken_false (c : N) :
  c ≠ 42%N → c ≠ 60%N → c ≠ 62%N → c ≠ 38%N → c ≠ 64%N → c ≠ 35%N →
  unspoken c = false.
Proof.
  intros H1 H2 H3 H4 H5 H6. unfold unspoken.
  change (units "*<>&@#") with [42; 60; 62; 38; 64; 35]%N.
  cbn [existsb].
  apply N.eqb_neq in H1, H2, H3, H4, H5, H6.
  by rewrite H1, H2, H3, H4, H5, H6.
Qed.

Lemma cleanForVoice_unspoken (t : str) :
  Forall (fun c => unspoken c = false) (cleanForVoice t).
Proof.
  pose proof (cleanForVoice_no_star t) as H1.
  pose proof (cleanForVoice_no_angle t) as H2.
  pose proof (cleanForVoice_no_ampersand t) as H3.
  pose proof (cleanForVoice_no_at t) as H4.
  pose proof (cleanForVoice_no_hash t) as H5.
  rewrite Forall_forall in *. intros c Hc.
  specialize (H1 c Hc). specialize (H2 c Hc). specialize (H3 c Hc).
  specialize (H4 c Hc). specialize (H5 c Hc). simpl in H2.
  apply orb_false_elim in H2 as [H2a H2b].
  apply N.eqb_neq in H2a, H2b.
  by apply unspoken_false.
Qed.
End OutputSymbols.

(** X18.  Whatever the input, the output of [cleanForVoice] holds none of the
    characters [*], [<], [>], [&], [@] and [#]. *)
Theorem cleanForVoice_output_has_no_symbol (t : Js.str) :
  Forall (fun c => Speech.unspoken c = false) (StreamingHandler.cleanForVoice t).
Proof. apply cleanForVoice_unspoken. Qed.

(** ** Normalizer: white space of the output *)

Section OutputSpaces.
Import Js StreamingHandler Voice Speech.

Lemma spaces_no_match (c : N) (s : str) :
  is_space c = false → spaces (c :: s) = None.
Proof. intros Hc. unfold spaces. simpl. by rewrite Hc. Qed.

Lemma spaces_match (c : N) (s : str) :
  is_space c = true →
  spaces (c :: s) = Some ([space], S (length (take_while is_space s))).
Proof. intros Hc. unfold spaces. simpl. by rewrite Hc. Qed.

(** Behind a collapsed run the text goes on with a character that is
    not white space, or ends. *)
Lemma gsub_spaces_head (s : str) :
  match s with
  | c :: _ => is_space c = false
  | [] => True
  end →
  match gsub spaces s with
  | d :: _ => is_space d = false
  | [] => True
  end.
Proof.
  destruct s as [| c s]; [done |]. intros Hc.
  by rewrite gsub_cons, spaces_no_match.
Qed.

Lemma gsub_spaces_spaced_bounded (n : nat) :
  ∀ s, length s ≤ n → spaced (gsub spaces s) = true.
Proof.
  induction n as [| n IH]; intros [| c s] Hlen; simpl in Hlen;
    try done; try lia.
  rewrite gsub_cons. destruct (is_space c) eqn:Hc.
  - rewrite spaces_match by done. simpl. rewrite Nat.sub_0_r.
    set (rest := drop (length (take_while is_space s)) s).
    assert (match rest with d :: _ => is_space d = false | [] => True end)
      as Hrest.
    { destruct rest as [| d r] eqn:E; [done |].
      by apply (take_while_stop is_space s d r). }
    apply gsub_spaces_head in Hrest.
    rewrite IH by (unfold rest; rewrite length_drop; lia).
    rewrite andb_true_r.
    destruct (gsub spaces rest) as [| d r]; [reflexivity |].
    by rewrite Hrest.
  - rewrite spaces_no_match by done. simpl. rewrite Hc. simpl.
    apply IH. lia.
Qed.

Lemma spaced_tail (c : N) (s : str) : spaced (c :: s) = true → spaced s = true.
Proof. simpl. intros H. by apply andb_prop in H as [_ H]. Qed.

Lemma drop_while_spaced (s : str) :
  spaced s = true → spaced (drop_while is_space s) = true.
Proof.
  induction s as [| c s IH]; [done |]. intros H.
  simpl. destruct (is_space c); [| exact H].
  by apply IH, (spaced_tail c).
Qed.

Lemma drop_while_head (s : str) :
  match drop_while is_space s with
  | c :: _ => is_space c = false
  | [] => True
  end.
Proof.
  induction s as [| c s IH]; [done |].
  simpl. destruct (is_space c) eqn:Hc; [exact IH | exact Hc].
Qed.

Lemma drop_while_snoc (p : N → bool) (l : str) (c : N) :
  drop_while p (l ++ [c])
  = match drop_while p l with
    | [] => if p c then [] else [c]
    | r => r ++ [c]
    end.
Proof.
  induction l as [| d l IH]; [reflexivity |].
  simpl. destruct (p d); [exact IH | reflexivity].
Qed.

(** Dropping the white space at the end, one character further left. *)
Lemma drop_end_cons (c : N) (x : str) :
  reverse (drop_while is_space (reverse (c :: x)))
  = match reverse (drop_while is_space (reverse x)) with
    | [] => if is_space c then [] else [c]
    | y => c :: y
    end.
Proof.
  rewrite reverse_cons, drop_while_snoc.
  destruct (drop_while is_space (reverse x)) as [| d r] eqn:E.
  - rewrite reverse_nil. by destruct (is_space c).
  - rewrite reverse_snoc.
    destruct (reverse (d :: r)) as [| e y] eqn:Er; [| reflexivity].
    apply (f_equal length) in Er. rewrite length_reverse in Er. discriminate.
Qed.

Lemma drop_end_head (x : str) (d : N) (y : str) :
  reverse (drop_while is_space (reverse x)) = d :: y → ∃ x', x = d :: x'.
Proof.
  destruct x as [| c x]; [done |]. rewrite drop_end_cons.
  destruct (reverse (drop_while is_space (reverse x))).
  - destruct (is_space c); [done |]. intros [= <- _]. by eexists.
  - intros [= <- _]. by eexists.
Qed.

Lemma drop_end_single_spaced (x : str) :
  spaced x = true →
  single_spaced (reverse (drop_while is_space (reverse x))) = true.
Proof.
  induction x as [| c x IH]; [done |]. intros Hx.
  specialize (IH (spaced_tail c x Hx)).
  rewrite drop_end_cons.
  destruct (reverse (drop_while is_space (reverse x))) as [| d y] eqn:E.
  - destruct (is_space c) eqn:Hc; [reflexivity |]. simpl. by rewrite Hc.
  - destruct (drop_end_head x d y E) as [x' ->].
    change (single_spaced (c :: d :: y))
      with ((negb (is_space c) || (c =? space)%N && negb (is_space d))
            && single_spaced (d :: y)).
    rewrite IH, andb_true_r.
    change (spaced (c :: d :: x'))
      with ((negb (is_space c) || (c =? space)%N && negb (is_space d))
            && spaced (d :: x')) in Hx.
    by apply andb_prop in Hx as [Hx _].
Qed.

Lemma trim_single_spaced (s : str) :
  spaced s = true →
  single_spaced (trim s) = true
  ∧ match trim s with c :: _ => is_space c = false | [] => True end.
Proof.
  intros Hs. unfold trim. split.
  - by apply drop_end_single_spaced, drop_while_spaced.
  - pose proof (drop_while_head s) as Hhead.
    destruct (reverse (drop_while is_space (reverse (drop_while is_space s))))
      as [| d y] eqn:E; [done |].
    destruct (drop_end_head _ d y E) as [x' Hx']. by rewrite Hx' in Hhead.
Qed.

Lemma cleanForVoice_tidy (t : str) :
  single_spaced (cleanForVoice t) = true
  ∧ match cleanForVoice t with c :: _ => is_space c = false | [] => True end.
Proof.
  unfold cleanForVoice. apply trim_single_spaced.
  eapply gsub_spaces_spaced_bounded. reflexivity.
Qed.
End OutputSpaces.

(** X19.  Whatever the input, the white space of the output of [cleanForVoice]
    is normalised: every white-space character is a plain space with a
    non-space character behind it, and the output does not start with
    white space, so it has none at either end and no two in a row. *)
Theorem cleanForVoice_output_single_spaced (t : Js.str) :
  Voice.single_spaced (StreamingHandler.cleanForVoice t) = true
  ∧ match StreamingHandler.cleanForVoice t with
    | c :: _ => Js.is_space c = false
    | [] => True
    end.
Proof. apply cleanForVoice_tidy. Qed.

Section Blank.
Import Js StreamingHandler.

Lemma blank_lacks (x : N) (t : str) :
  is_space x = false →
  Forall (fun c => is_space c = true) t →
  Forall (fun c => (x =? c)%N = false) t ∧ Forall (fun c => (c =? x)%N = false) t.
Proof.
  intros Hx Ht. split; (eapply Forall_impl; [exact Ht |]); intros c Hc; simpl in *.
  - destruct (x =? c)%N eqn:E; [| reflexivity].
    apply N.eqb_eq in E as ->. congruence.
  - destruct (c =? x)%N eqn:E; [| reflexivity].
    apply N.eqb_eq in E as ->. congruence.
Qed.

Lemma link_untouched (s : str) :
  Forall (fun c => (c =? lbracket)%N = false) s → gsub link s = s.
Proof.
  apply gsub_untouched. intros c s' Hc. unfold link. by rewrite Hc.
Qed.

Lemma take_while_whole (p : N → bool) (s : str) :
  Forall (fun c => p c = true) s → take_while p s = s.
Proof.
  induction 1 as [| c s Hc Hs IH]; [reflexivity |].
  simpl. by rewrite Hc, IH.
Qed.

Lemma drop_while_whole (p : N → bool) (s : str) :
  Forall (fun c => p c = true) s → drop_while p s = [].
Proof.
  induction 1 as [| c s Hc Hs IH]; [reflexivity |].
  simpl. by rewrite Hc.
Qed.

Lemma cleanForVoice_blank (t : str) :
  Forall (fun c => is_space c = true) t → cleanForVoice t = [].
Proof.
  intros Ht. unfold cleanForVoice.
  rewrite (lit_untouched star [star] [] t)
    by (by apply (blank_lacks star)).
  rewrite (lit_untouched star [] [] t) by (by apply (blank_lacks star)).
  rewrite (code_block_untouched t) by (by apply (blank_lacks backtick)).
  rewrite (inline_code_untouched t) by (by apply (blank_lacks backtick)).
  rewrite (header_untouched t) by (by apply (blank_lacks hash)).
  rewrite (link_untouched t) by (by apply (blank_lacks lbracket)).
  rewrite (class_untouched _ [] t).
  2: { eapply Forall_impl; [exact Ht |]. intros c Hc. simpl in *.
       apply orb_false_intro.
       - destruct (c =? 60)%N eqn:E; [| reflexivity].
         apply N.eqb_eq in E as ->. discriminate.
       - destruct (c =? 62)%N eqn:E; [| reflexivity].
         apply N.eqb_eq in E as ->. discriminate. }
  change (units "&") with [38%N]. change (units "@") with [64%N].
  change (units "#") with [35%N].
  rewrite (lit_untouched 38 [] _ t) by (by apply (blank_lacks 38)).
  rewrite (lit_untouched 64 [] _ t) by (by apply (blank_lacks 64)).
  rewrite (lit_untouched 35 [] _ t) by (by apply (blank_lacks 35)).
  destruct t as [| c t]; [reflexivity |].
  apply Forall_cons_1 in Ht as [Hc Ht].
  rewrite gsub_cons. unfold spaces. simpl take_while. rewrite Hc.
  rewrite (take_while_whole is_space t Ht). simpl.
  rewrite Nat.sub_0_r, drop_all. reflexivity.
Qed.
End Blank.

(** X20.  An input made of white space only, the empty input included, is
    cleaned to the empty string. *)
Theorem cleanForVoice_blank_is_empty (t : Js.str) :
  Forall (fun c => Js.is_space c = true) t →
  StreamingHandler.cleanForVoice t = [].
Proof. apply cleanForVoice_blank. Qed.

Lemma cleanForVoice_blank_is_empty_witness :
  StreamingHandler.cleanForVoice [32; 9; 10; 160; 32]%N = [].
Proof.
  apply (cleanForVoice_blank_is_empty [32; 9; 10; 160; 32]%N).
  repeat constructor.
Defined.

(** ** Token buffering *)

Section Buffering.
Import Js StreamingHandler TokenBuffer Speech.

Lemma filter_ink_skip (c : N) (s : str) :
  is_space c = true → filter ink (c :: s) = filter ink s.
Proof.
  intros Hc. rewrite filter_cons.
  destruct (decide (ink c)) as [Hyes |]; [| done].
  unfold ink in Hyes. rewrite Hc in Hyes. done.
Qed.

Lemma drop_while_space_ink (s : str) :
  filter ink (drop_while is_space s) = filter ink s.
Proof.
  induction s as [| c s IH]; [reflexivity |].
  simpl. destruct (is_space c) eqn:Hc; [| reflexivity].
  rewrite IH. symmetry. by apply filter_ink_skip.
Qed.

Lemma trim_ink (s : str) : filter ink (trim s) = filter ink s.
Proof.
  unfold trim.
  rewrite filter_reverse, drop_while_space_ink, filter_reverse,
    drop_while_space_ink.
  apply reverse_involutive.
Qed.

Lemma split_spaces_ink (s : str) :
  ∀ cur, filter ink (concat (split_spaces cur s))
         = filter ink (reverse cur ++ s).
Proof.
  induction s as [| c s IH]; intros cur; simpl.
  - by rewrite !app_nil_r.
  - destruct (c =? space)%N eqn:Hc.
    + apply N.eqb_eq in Hc as ->. simpl.
      rewrite !filter_app, IH. simpl.
      by rewrite (filter_ink_skip space s).
    + rewrite IH, reverse_cons, <- app_assoc. reflexivity.
Qed.

Lemma separator_ink (cur word : str) :
  filter ink (cur ++ (match cur with [] => [] | _ => [space] end) ++ word)
  = filter ink cur ++ filter ink word.
Proof.
  rewrite !filter_app. f_equal.
  destruct cur; [reflexivity |]. by rewrite (filter_ink_skip space []).
Qed.

Lemma buffer_loop_ink (bufferSize : nat) (words : list str) :
  ∀ cur n,
    filter ink (concat (buffer_loop bufferSize cur n words))
    = filter ink cur ++ filter ink (concat words).
Proof.
  induction words as [| word words IH]; intros cur n.
  - cbn [buffer_loop concat]. rewrite app_nil_r, <- (trim_ink cur).
    destruct (trim cur); [reflexivity |]. simpl. by rewrite app_nil_r.
  - cbn [buffer_loop concat].
    destruct (ends_sentence word || (bufferSize <=? S n)).
    + cbn [concat]. rewrite filter_app, trim_ink, IH, separator_ink.
      rewrite filter_app, <- app_assoc. reflexivity.
    + rewrite IH, separator_ink, filter_app, <- app_assoc. reflexivity.
Qed.
End Buffering.

(** X21.  [bufferTokensForSpeech] loses no character that is not white space
    and keeps them in order: read one after the other, the chunks hold
    exactly the non-space characters of the text, whatever the buffer
    size. *)
Theorem bufferTokensForSpeech_keeps_text (text : Js.str) (bufferSize : nat) :
  filter Speech.ink (concat (TokenBuffer.bufferTokensForSpeech text bufferSize))
  = filter Speech.ink text.
Proof.
  unfold TokenBuffer.bufferTokensForSpeech.
  rewrite buffer_loop_ink, split_spaces_ink. reflexivity.
Qed.

Section BufferWords.
Import Js StreamingHandler TokenBuffer Speech.

Lemma count_spaces_app (a b : str) :
  count_spaces (a ++ b) = count_spaces a + count_spaces b.
Proof. unfold count_spaces. by rewrite filter_app, length_app. Qed.

Lemma count_spaces_drop_while (p : N → bool) (s : str) :
  count_spaces (drop_while p s) ≤ count_spaces s.
Proof.
  induction s as [| c s IH]; [done |].
  simpl. destruct (p c); [| done].
  etrans; [exact IH |]. unfold count_spaces. rewrite filter_cons.
  destruct (decide (c = space)); simpl; lia.
Qed.

Lemma count_spaces_reverse (s : str) :
  count_spaces (reverse s) = count_spaces s.
Proof. unfold count_spaces. by rewrite filter_reverse, length_reverse. Qed.

Lemma count_spaces_trim (s : str) : count_spaces (trim s) ≤ count_spaces s.
Proof.
  unfold trim. rewrite count_spaces_reverse.
  etrans; [apply count_spaces_drop_while |].
  rewrite count_spaces_reverse. apply count_spaces_drop_while.
Qed.

Lemma split_spaces_words (s : str) :
  ∀ cur, count_spaces cur = 0 →
         Forall (fun w => count_spaces w = 0) (split_spaces cur s).
Proof.
  induction s as [| c s IH]; intros cur Hcur; simpl.
  - constructor; [by rewrite count_spaces_reverse | constructor].
  - destruct (c =? space)%N eqn:Hc.
    + constructor; [by rewrite count_spaces_reverse | by apply IH].
    + apply IH. unfold count_spaces in *. rewrite filter_cons.
      destruct (decide (c = space)) as [-> |]; [| exact Hcur].
      by rewrite N.eqb_refl in Hc.
Qed.

Lemma buffer_loop_words (bufferSize : nat) (words : list str) :
  Forall (fun w => count_spaces w = 0) words →
  ∀ cur n,
    (n = 0 → cur = []) →
    count_spaces cur ≤ n - 1 →
    n < max 1 bufferSize →
    Forall (fun chunk => count_spaces chunk < max 1 bufferSize)
      (buffer_loop bufferSize cur n words).
Proof.
  induction 1 as [| word words Hword Hwords IH]; intros cur n Hzero Hcount Hn.
  - cbn [buffer_loop].
    pose proof (count_spaces_trim cur) as Htrim.
    destruct (trim cur) as [| d r]; constructor; [lia | constructor].
  - cbn [buffer_loop].
    set (cur' := cur ++ (match cur with [] => [] | _ => [space] end) ++ word).
    assert (count_spaces cur' ≤ n) as Hcur'.
    { unfold cur'. rewrite !count_spaces_app, Hword.
      destruct cur as [| c cur0]; [simpl; unfold count_spaces; simpl; lia |].
      assert (n ≠ 0) by (intros ->; by specialize (Hzero eq_refl)).
      change (count_spaces [space]) with 1. lia. }
    destruct (ends_sentence word || (bufferSize <=? S n)) eqn:Hpush.
    + constructor.
      * pose proof (count_spaces_trim cur'). lia.
      * apply IH; [done | unfold count_spaces; simpl; lia | lia].
    + apply orb_false_elim in Hpush as [_ Hsize].
      apply Nat.leb_gt in Hsize.
      apply IH; [lia | lia | lia].
Qed.
End BufferWords.

(** X22.  No chunk of [bufferTokensForSpeech] is longer than the buffer size
    in words: a chunk holds fewer plain spaces than [bufferSize] (none
    when the size is 0 or 1, where every word is a chunk of its own). *)
Theorem bufferTokensForSpeech_chunk_words (text : Js.str) (bufferSize : nat) :
  Forall (fun chunk => Speech.count_spaces chunk < max 1 bufferSize)
    (TokenBuffer.bufferTokensForSpeech text bufferSize).
Proof.
  unfold TokenBuffer.bufferTokensForSpeech.
  apply buffer_loop_words; [by apply split_spaces_words | done | | lia].
  unfold Speech.count_spaces. simpl. lia.
Qed.

(** ** Speakable chunks *)

Section Chunks.
Import Js StreamingHandler SpeakableChunks Speech.

Lemma chunk_loop_bound (maxLength : nat) (all : list str) (sentences : list str) :
  ∀ cur,
    (cur = [] ∨ length cur ≤ maxLength ∨ cur ∈ all) →
    sentences ⊆ all →
    Forall (fun chunk => length chunk ≤ maxLength ∨ chunk ∈ all)
      (chunk_loop maxLength cur sentences).
Proof.
  induction sentences as [| s sentences IH]; intros cur Hcur Hall.
  - cbn [chunk_loop]. destruct cur as [| c cur0]; [constructor |].
    constructor; [| constructor]. by destruct Hcur as [Hnil | Hcur].
  - cbn [chunk_loop].
    assert (s ∈ all) as Hs by (apply Hall; constructor).
    assert (sentences ⊆ all) as Hrest
      by (intros x Hx; apply Hall; by constructor).
    destruct (length (cur ++ [space] ++ s) <=? maxLength) eqn:Hfit.
    + apply Nat.leb_le in Hfit. apply IH; [| exact Hrest].
      right. left. rewrite !length_app in *.
      destruct cur; simpl in *; lia.
    + apply Forall_app. split.
      * destruct cur as [| c cur0]; [constructor |].
        constructor; [| constructor]. by destruct Hcur as [Hnil | Hcur].
      * apply IH; [by right; right | exact Hrest].
Qed.

Lemma chunk_loop_nonempty (maxLength : nat) (sentences : list str) :
  ∀ cur, Forall (fun chunk => chunk ≠ []) (chunk_loop maxLength cur sentences).
Proof.
  induction sentences as [| s sentences IH]; intros cur; cbn [chunk_loop].
  - destruct cur; by repeat constructor.
  - destruct (length (cur ++ [space] ++ s) <=? maxLength); [apply IH |].
    apply Forall_app. split; [| apply IH].
    destruct cur; by repeat constructor.
Qed.

Lemma chunk_loop_ink (maxLength : nat) (sentences : list str) :
  ∀ cur,
    filter ink (concat (chunk_loop maxLength cur sentences))
    = filter ink cur ++ filter ink (concat sentences).
Proof.
  induction sentences as [| s sentences IH]; intros cur; cbn [chunk_loop concat].
  - rewrite app_nil_r. destruct cur; [reflexivity |].
    simpl. by rewrite app_nil_r.
  - destruct (length (cur ++ [space] ++ s) <=? maxLength).
    + rewrite IH, separator_ink, filter_app, <- app_assoc. reflexivity.
    + rewrite concat_app, filter_app, IH, filter_app. f_equal.
      destruct cur; [reflexivity |]. simpl. by rewrite app_nil_r.
Qed.

Lemma take_while_take (p : N → bool) (s : str) :
  take (length (take_while p s)) s = take_while p s.
Proof.
  rewrite <- (take_while_drop p s) at 2. apply take_app_length.
Qed.

Lemma split_from_ink (s : str) :
  ∀ prev skip cur,
    Forall (fun c => is_space c = true) (take skip s) →
    filter ink (concat (split_from prev skip cur s))
    = filter ink (reverse cur) ++ filter ink s.
Proof.
  induction s as [| c s IH]; intros prev skip cur Hskip.
  - simpl. by rewrite !app_nil_r.
  - cbn [split_from]. destruct skip as [| k].
    + destruct (after_ender prev && is_space c) eqn:Hbreak.
      * apply andb_prop in Hbreak as [_ Hc].
        cbn [concat]. rewrite filter_app, IH.
        -- rewrite reverse_nil. simpl. by rewrite (filter_ink_skip c s).
        -- simpl take_while. rewrite Hc. simpl. rewrite Nat.sub_0_r.
           rewrite take_while_take. apply take_while_all.
      * rewrite IH by constructor.
        rewrite reverse_cons, filter_app, <- app_assoc. f_equal.
        by rewrite <- filter_app.
    + simpl in Hskip. apply Forall_cons_1 in Hskip as [Hc Hskip].
      rewrite IH by exact Hskip. by rewrite (filter_ink_skip c s).
Qed.
End Chunks.

(** X23.  Every chunk of [splitIntoSpeakableChunks] either fits the maximum
    length or is one whole sentence of the cleaned text that is longer
    than the limit allows: sentences are never cut, and only a single
    sentence can exceed the maximum. *)
Theorem speakable_chunks_fit (text : Js.str) (maxLength : nat) :
  Forall
    (fun chunk =>
       length chunk ≤ maxLength
       ∨ chunk ∈ SpeakableChunks.split_sentences
                   (StreamingHandler.cleanForVoice text))
    (SpeakableChunks.splitIntoSpeakableChunks text maxLength).
Proof.
  unfold SpeakableChunks.splitIntoSpeakableChunks.
  apply chunk_loop_bound; [by left | done].
Qed.

(** X24.  [splitIntoSpeakableChunks] returns no empty chunk, and read one
    after the other its chunks hold exactly the non-space characters of
    the cleaned text, in order: chunking loses nothing that cleaning
    kept. *)
Theorem speakable_chunks_keep_text (text : Js.str) (maxLength : nat) :
  Forall (fun chunk => chunk ≠ [])
    (SpeakableChunks.splitIntoSpeakableChunks text maxLength)
  ∧ filter Speech.ink
      (concat (SpeakableChunks.splitIntoSpeakableChunks text maxLength))
    = filter Speech.ink (StreamingHandler.cleanForVoice text).
Proof.
  unfold SpeakableChunks.splitIntoSpeakableChunks. split.
  - apply chunk_loop_nonempty.
  - rewrite chunk_loop_ink. unfold SpeakableChunks.split_sentences.
    rewrite split_from_ink by constructor. reflexivity.
Qed.

Section Delivered.
Import Js StreamingHandler SpeakableChunks Speech.

Lemma inked_snoc (x : str) (c : N) : x ≠ [] → inked x → inked (x ++ [c]).
Proof. by destruct x. Qed.

Lemma split_from_inked (s : str) :
  ∀ prev skip cur,
    inked (reverse cur) →
    (cur = [] → inked (drop skip s)) →
    Forall inked (split_from prev skip cur s).
Proof.
  induction s as [| c s IH]; intros prev skip cur Hcur Hnext.
  - by repeat constructor.
  - cbn [split_from]. destruct skip as [| k].
    + destruct (after_ender prev && is_space c) eqn:Hbreak.
      * constructor; [exact Hcur |].
        apply IH; [by rewrite reverse_nil |]. intros _.
        apply andb_prop in Hbreak as [_ Hc].
        simpl take_while. rewrite Hc. simpl. rewrite Nat.sub_0_r.
        destruct (drop (length (take_while is_space s)) s) as [| d r] eqn:E;
          [done |].
        by apply (take_while_stop is_space s d r).
      * apply IH; [| done].
        rewrite reverse_cons. destruct cur as [| c0 cur0].
        -- rewrite reverse_nil. simpl. by apply Hnext.
        -- apply inked_snoc; [| exact Hcur].
           rewrite reverse_cons. by destruct (reverse cur0).
    + apply IH; [exact Hcur | exact Hnext].
Qed.

Lemma chunk_loop_inked (maxLength : nat) (sentences : list str) :
  Forall inked sentences →
  ∀ cur, inked cur →
         Forall (fun chunk => chunk ≠ [] ∧ inked chunk)
           (chunk_loop maxLength cur sentences).
Proof.
  induction 1 as [| s sentences Hs Hrest IH]; intros cur Hcur;
    cbn [chunk_loop].
  - destruct cur; by repeat constructor.
  - destruct (length (cur ++ [space] ++ s) <=? maxLength).
    + apply IH. by destruct cur.
    + apply Forall_app. split; [| by apply IH].
      destruct cur; by repeat constructor.
Qed.

Lemma trim_inked (x : str) : x ≠ [] → inked x → trim x ≠ [].
Proof.
  destruct x as [| c x]; [done |]. intros _ Hc. simpl in Hc.
  unfold trim. simpl drop_while. rewrite Hc, drop_end_cons, Hc.
  by destruct (reverse (drop_while is_space (reverse x))).
Qed.

Lemma filter_all {A} (p : A → bool) (l : list A) :
  Forall (fun x => p x = true) l → List.filter p l = l.
Proof.
  induction 1 as [| x l Hx Hl IH]; [reflexivity |].
  simpl. by rewrite Hx, IH.
Qed.

Lemma processStreamingResponse_all (text : str) :
  processStreamingResponse text = splitIntoSpeakableChunks text 200.
Proof.
  unfold processStreamingResponse. apply filter_all.
  unfold splitIntoSpeakableChunks.
  eapply Forall_impl.
  - apply chunk_loop_inked; [| done].
    apply split_from_inked; [done |]. intros _.
    exact (proj2 (cleanForVoice_tidy text)).
  - intros chunk [Hne Hink]. simpl.
    pose proof (trim_inked chunk Hne Hink). by destruct (trim chunk).
Qed.
End Delivered.

(** X25.  The guard of [processStreamingResponse] against blank chunks never
    fires: every chunk that [splitIntoSpeakableChunks] builds from the
    cleaned text starts with a character that is not white space, so all
    of them, in order, are handed to [onChunk]. *)
Theorem processStreamingResponse_delivers_all (text : Js.str) :
  SpeakableChunks.processStreamingResponse text
  = SpeakableChunks.splitIntoSpeakableChunks text 200.
Proof. apply processStreamingResponse_all. Qed.

(** ** Streaming: what reaches the caller *)

(** X26.  Every chunk that a stream hands to [onChunk] for a token is the
    cleaned form of a piece of that token: it is not empty, holds none
    of the characters [*], [<], [>], [&], [@] and [#], and its white
    space is normalised. *)
Theorem streamed_chunks_are_clean (ref : nat) (content : Js.str)
    (st : LlamaService.Streams) :
  Forall
    (fun chunk =>
       chunk ≠ []
       ∧ Forall (fun c => Speech.unspoken c = false) chunk
       ∧ Voice.single_spaced chunk = true)
    (LlamaService.streamToken ref content st).
Proof.
  unfold LlamaService.streamToken.
  destruct (LlamaService.controllers st !! ref) as [s |]; [| constructor].
  destruct (LlamaService.aborted s || LlamaService.finished s); [constructor |].
  destruct content as [| c0 content0]; [constructor |].
  apply Forall_forall. intros chunk Hin.
  apply list_elem_of_In, filter_In in Hin as [Hin Hne].
  apply in_map_iff in Hin as (piece & <- & _).
  split; [| split].
  - by destruct (StreamingHandler.cleanForVoice piece).
  - apply cleanForVoice_unspoken.
  - apply cleanForVoice_tidy.
Qed.

(** ** Normalizer: where content is lost *)

Section Lost.
Import Js StreamingHandler Voice Rewriting.

Lemma stands_for_none (m : matcher) (R : str → str → Prop) (s : str) :
  stands_for m R → (m s = None ↔ ¬ found R s).
Proof.
  intros [Hsound Hcomplete]. split.
  - intros Hnone (seg & rep & rest & HR & ->).
    by rewrite (Hcomplete seg rep rest HR) in Hnone.
  - intros Hnot. destruct (m s) as [[rep len] |] eqn:Hm; [| done].
    destruct (Hsound _ _ _ Hm) as (_ & _ & HR).
    destruct Hnot. exists (take len s), rep, (drop len s).
    by rewrite take_drop.
Qed.

Lemma gsub_Replaced_bounded (R : str → str → Prop) (m : matcher) (n : nat) :
  stands_for m R →
  ∀ s, length s ≤ n → Replaced R s (gsub m s).
Proof.
  intros Hm. induction n as [| n IH]; intros [| c s] Hlen; simpl in Hlen;
    try lia; try apply Replaced_nil.
  rewrite gsub_cons.
  destruct (m (c :: s)) as [[rep len] |] eqn:Hmatch.
  - destruct (proj1 Hm _ _ _ Hmatch) as (Hpos & _ & HR).
    destruct len as [| l]; [lia |].
    rewrite <- (take_drop (S l) (c :: s)) at 1.
    apply Replaced_seg; [exact HR |].
    simpl. rewrite Nat.sub_0_r. apply IH. rewrite length_drop. lia.
  - apply Replaced_copy; [by apply (stands_for_none m R) | apply IH; lia].
Qed.

Lemma gsub_Replaced (R : str → str → Prop) (m : matcher) (s : str) :
  stands_for m R → Replaced R s (gsub m s).
Proof. intros Hm. by apply (gsub_Replaced_bounded R m (length s)). Qed.

Lemma Replaced_gsub (R : str → str → Prop) (m : matcher) (a b : str) :
  stands_for m R → Replaced R a b → b = gsub m a.
Proof.
  intros Hm Hab. induction Hab as [| c a b Hnot _ IH | seg rep a b HR _ IH].
  - reflexivity.
  - rewrite gsub_cons.
    apply (stands_for_none m R _ Hm) in Hnot. by rewrite Hnot, IH.
  - pose proof (proj2 Hm seg rep a HR) as Hmatch.
    destruct (proj1 Hm _ _ _ Hmatch) as (Hpos & _ & _).
    destruct seg as [| c seg]; [simpl in Hpos; lia |].
    change ((c :: seg) ++ a) with (c :: (seg ++ a)) in *.
    rewrite gsub_cons, Hmatch. simpl. rewrite Nat.sub_0_r.
    by rewrite drop_app_length, IH.
Qed.

Lemma Replaced_iff (R : str → str → Prop) (m : matcher) (a b : str) :
  stands_for m R → (Replaced R a b ↔ b = gsub m a).
Proof.
  intros Hm. split; [by apply Replaced_gsub |].
  intros ->. by apply gsub_Replaced.
Qed.

Lemma find_fence_take (r : str) :
  ∀ k, find_fence r = Some k → take (k + 3) r = take k r ++ fence.
Proof.
  induction r as [| c r IH]; intros k; [done |].
  cbn [find_fence].
  destruct (starts_with fence (c :: r)) eqn:Hs.
  - intros [= <-]. by apply (starts_with_take fence).
  - destruct (find_fence r) as [k' |]; [| done].
    intros [= <-]. simpl. f_equal. by apply IH.
Qed.

Lemma starts_with_fence (post : str) : starts_with fence (fence ++ post) = true.
Proof. reflexivity. Qed.

Lemma find_fence_least (r : str) :
  ∀ k pre post, find_fence r = Some k → r = pre ++ fence ++ post → k ≤ length pre.
Proof.
  induction r as [| c r IH]; intros k pre post; [done |].
  cbn [find_fence].
  destruct (starts_with fence (c :: r)) eqn:Hs.
  - intros [= <-] _. lia.
  - destruct (find_fence r) as [k' |] eqn:Hk; [| done].
    intros [= <-] Hr. destruct pre as [| d pre].
    + rewrite Hr, app_nil_l, starts_with_fence in Hs. done.
    + injection Hr as _ Hr. simpl.
      pose proof (IH k' pre post eq_refl Hr). lia.
Qed.

Lemma find_fence_found (pre post : str) :
  ∃ k, find_fence (pre ++ fence ++ post) = Some k ∧ k ≤ length pre.
Proof.
  induction pre as [| d pre (k & Hk & Hle)].
  - exists 0. split; [| done]. rewrite app_nil_l.
    change (fence ++ post) with (backtick :: backtick :: backtick :: post) at 1.
    cbn [find_fence].
    change (backtick :: backtick :: backtick :: post) with (fence ++ post).
    by rewrite starts_with_fence.
  - change ((d :: pre) ++ fence ++ post) with (d :: (pre ++ fence ++ post)).
    cbn [find_fence].
    destruct (starts_with fence (d :: pre ++ fence ++ post)).
    + exists 0. split; [done | lia].
    + exists (S k). rewrite Hk. split; [done | simpl; lia].
Qed.

Lemma code_block_stands_for : stands_for code_block fencedBlock.
Proof.
  split.
  - intros s rep len. unfold code_block.
    destruct (starts_with fence s) eqn:Hs; [| done].
    destruct (find_fence (drop 3 s)) as [k |] eqn:Hk; [| done].
    intros [= <- <-].
    pose proof (starts_with_take fence s Hs) as Hhead.
    change (length fence) with 3 in Hhead.
    pose proof (find_fence_take _ _ Hk) as Htake.
    assert (Hlen : k + 3 ≤ length (drop 3 s)).
    { apply (f_equal length) in Htake.
      rewrite length_app, !length_take in Htake.
      change (length fence) with 3 in Htake. lia. }
    assert (H3 : 3 ≤ length s).
    { apply (f_equal length) in Hhead. rewrite length_take in Hhead.
      change (length fence) with 3 in Hhead. lia. }
    rewrite length_drop in Hlen.
    split; [lia |]. split; [lia |]. split; [reflexivity |].
    exists (take k (drop 3 s)). split.
    + rewrite <- (take_drop 3 s) at 1. rewrite Hhead.
      change (S (S (S (k + 3)))) with (3 + (k + 3)).
      rewrite (take_app_add' fence (drop 3 s) 3 (k + 3)) by reflexivity.
      f_equal. exact Htake.
    + intros pre post Heq.
      assert (Hd : drop 3 s = pre ++ fence ++ (post ++ drop (k + 3) (drop 3 s))).
      { rewrite <- (take_drop (k + 3) (drop 3 s)) at 1.
        rewrite Htake, Heq. by rewrite <- !app_assoc. }
      pose proof (find_fence_least _ _ _ _ Hk Hd) as Hleast.
      apply (f_equal length) in Heq.
      rewrite !length_app, length_take in Heq. simpl in Heq.
      destruct post; [done | simpl in Heq; lia].
  - intros seg rep rest [-> (body & -> & Hfirst)]. unfold code_block.
    rewrite <- !app_assoc, starts_with_fence.
    change (drop 3 (fence ++ body ++ fence ++ rest)) with (body ++ fence ++ rest).
    destruct (find_fence_found body rest) as (k & Hk & Hle).
    rewrite Hk. f_equal. f_equal. rewrite !length_app. simpl.
    enough (length body ≤ k) by lia.
    destruct (decide (length body ≤ k)) as [| Hlt]; [done |].
    pose proof (find_fence_take _ _ Hk) as Htake.
    assert (Hin : take (k + 3) (body ++ fence ++ rest)
                  = take (k + 3) (body ++ fence)).
    { rewrite (app_assoc body fence rest).
      apply take_app_le. rewrite length_app. simpl. lia. }
    assert (Hk' : take k (body ++ fence ++ rest) = take k (body ++ fence)).
    { rewrite (app_assoc body fence rest).
      apply take_app_le. rewrite length_app. simpl. lia. }
    pose proof (Hfirst (take k (body ++ fence)) (drop (k + 3) (body ++ fence)))
      as Hpost.
    rewrite app_assoc, <- Hk', <- Htake, Hin, take_drop in Hpost.
    specialize (Hpost eq_refl).
    apply (f_equal length) in Hpost.
    rewrite length_drop, length_app in Hpost. simpl in Hpost. lia.
Qed.

Lemma take_while_exact (p : N → bool) (pre : str) (c : N) (post : str) :
  Forall (fun x => p x = true) pre → p c = false →
  take_while p (pre ++ c :: post) = pre.
Proof.
  intros Hpre Hc. induction Hpre as [| x pre Hx _ IH]; simpl.
  - by rewrite Hc.
  - by rewrite Hx, IH.
Qed.

Lemma link_text (s rep : str) (len : nat) :
  link s = Some (rep, len) →
  0 < len ∧ len ≤ length s ∧ linkToText (take len s) rep.
Proof.
  destruct s as [| c s1]; unfold link; [done |].
  destruct (c =? lbracket)%N eqn:Hc; [| done].
  apply N.eqb_eq in Hc as ->.
  pose proof (take_while_drop (fun x => negb (x =? rbracket)%N) s1) as Hsplit1.
  pose proof (take_while_all (fun x => negb (x =? rbracket)%N) s1) as Hall1.
  destruct (take_while (fun x => negb (x =? rbracket)%N) s1)
    as [| b text'] eqn:Htext; [done |].
  destruct (drop (length (b :: text')) s1) as [| c1 [| p s2]] eqn:Hdrop1;
    try done.
  destruct (p =? lparen)%N eqn:Hp; [| done].
  apply N.eqb_eq in Hp as ->.
  pose proof (take_while_drop (fun x => negb (x =? rparen)%N) s2) as Hsplit2.
  pose proof (take_while_all (fun x => negb (x =? rparen)%N) s2) as Hall2.
  destruct (take_while (fun x => negb (x =? rparen)%N) s2)
    as [| u url'] eqn:Hurl; [done |].
  destruct (drop (length (u :: url')) s2) as [| c2 rest] eqn:Hdrop2; [done |].
  intros [= <- <-]. split; [lia |].
  assert (c1 = rbracket) as ->.
  { pose proof (take_while_stop (fun x => negb (x =? rbracket)%N) s1 c1
                  (lparen :: s2)) as Hstop.
    rewrite Htext in Hstop. specialize (Hstop Hdrop1).
    apply negb_false_iff in Hstop. by apply N.eqb_eq in Hstop. }
  assert (c2 = rparen) as ->.
  { pose proof (take_while_stop (fun x => negb (x =? rparen)%N) s2 c2 rest)
      as Hstop.
    rewrite Hurl in Hstop. specialize (Hstop Hdrop2).
    apply negb_false_iff in Hstop. by apply N.eqb_eq in Hstop. }
  assert (Hs : lbracket :: s1
               = ([lbracket] ++ (b :: text') ++ [rbracket; lparen]
                  ++ (u :: url') ++ [rparen]) ++ rest).
  { rewrite <- Hsplit1, <- Hsplit2. rewrite <- !app_assoc. reflexivity. }
  split.
  { rewrite Hs, length_app, !length_app. simpl. lia. }
  split; [done |]. split.
  { eapply Forall_impl; [exact Hall1 |]. intros x Hx. simpl in Hx.
    apply negb_true_iff in Hx. by apply N.eqb_neq in Hx. }
  exists (u :: url'). split; [done |]. split.
  { eapply Forall_impl; [exact Hall2 |]. intros x Hx. simpl in Hx.
    apply negb_true_iff in Hx. by apply N.eqb_neq in Hx. }
  rewrite Hs. apply take_app_length'. rewrite !length_app. simpl. lia.
Qed.

Lemma link_stands_for : stands_for link linkToText.
Proof.
  split; [apply link_text |].
  intros seg rep rest (Hrep & Hnob & url & Hurl & Hnop & ->).
  rewrite <- !app_assoc.
  change ([lbracket] ++ rep ++ [rbracket; lparen] ++ url ++ [rparen] ++ rest)
    with (lbracket :: (rep ++ rbracket :: lparen :: (url ++ rparen :: rest))).
  unfold link. rewrite N.eqb_refl.
  rewrite (take_while_exact _ rep rbracket); cycle 1.
  { eapply Forall_impl; [exact Hnob |]. intros x Hx. simpl.
    apply negb_true_iff. by apply N.eqb_neq. }
  { by rewrite N.eqb_refl. }
  destruct rep as [| r0 rep']; [done |]. cbv beta iota.
  rewrite drop_app_length. rewrite N.eqb_refl.
  rewrite (take_while_exact _ url rparen); cycle 1.
  { eapply Forall_impl; [exact Hnop |]. intros x Hx. simpl.
    apply negb_true_iff. by apply N.eqb_neq. }
  { by rewrite N.eqb_refl. }
  destruct url as [| u0 url']; [done |]. cbv beta iota.
  rewrite drop_app_length.
  f_equal. f_equal. simpl. rewrite !length_app. simpl. rewrite ?length_app.
  simpl. lia.
Qed.

(** A pattern whose match and replacement look the same through a
    filter leaves the filtered text as it is. *)
Lemma gsub_filter_bounded (P : N → Prop) `{!∀ c, Decision (P c)}
    (m : matcher) (n : nat) :
  (∀ s rep len, m s = Some (rep, len) →
                0 < len ∧ filter P (take len s) = filter P rep) →
  ∀ s, length s ≤ n → filter P (gsub m s) = filter P s.
Proof.
  intros Hm. induction n as [| n IH]; intros [| c s] Hlen; simpl in Hlen;
    try done; try lia.
  rewrite gsub_cons.
  destruct (m (c :: s)) as [[rep len] |] eqn:Hmatch.
  - destruct (Hm _ _ _ Hmatch) as [Hpos Heq].
    destruct len as [| l]; [lia |].
    rewrite <- (take_drop (S l) (c :: s)) at 1.
    rewrite !filter_app, Heq. f_equal.
    simpl. rewrite Nat.sub_0_r. apply IH. rewrite length_drop. lia.
  - rewrite !filter_cons. rewrite IH by lia. reflexivity.
Qed.

Lemma gsub_single_filter (x : N) (s : str) :
  gsub (lit [x] []) s = filter (fun c => c ≠ x) s.
Proof.
  induction s as [| c s IH]; [reflexivity |].
  rewrite gsub_cons. unfold lit. cbn [starts_with length].
  rewrite andb_true_r, filter_cons.
  destruct (x =? c)%N eqn:E.
  - apply N.eqb_eq in E as <-.
    change (drop (length [x] - 1) s) with s. rewrite app_nil_l.
    destruct (decide (x ≠ x)); [done | exact IH].
  - apply N.eqb_neq in E.
    destruct (decide (c ≠ x)) as [| Hn]; [f_equal; exact IH |].
    exfalso. apply Hn. intros ->. by apply E.
Qed.

Lemma beforeCodeBlocks_filter (t : str) :
  beforeCodeBlocks t = filter (fun c => c ≠ star) t.
Proof.
  unfold beforeCodeBlocks. rewrite gsub_single_filter.
  apply (gsub_filter_bounded _ _ (length t)); [| done].
  intros s rep len. unfold lit.
  destruct (starts_with [star; star] s) eqn:Hs; [| done].
  intros [= <- <-]. split; [simpl; lia |].
  pose proof (starts_with_take _ _ Hs) as Htake.
  change (length [star; star]) with 2 in *. by rewrite Htake.
Qed.

Lemma after_links_kept (t : str) :
  filter content (gsub link (beforeLinks t)) `sublist_of` cleanForVoice t.
Proof.
  unfold cleanForVoice, beforeLinks, beforeCodeBlocks.
  apply content_sublist, trim_keeps.
  apply gsub_step; [apply spaces_keeps |].
  do 3 (apply gsub_step; [apply lit_keeps; [done | by repeat constructor] |]).
  apply gsub_step; [| reflexivity].
  apply class_keeps. intros c Hc.
  apply orb_prop in Hc as [Hc | Hc]; apply N.eqb_eq in Hc as ->; reflexivity.
Qed.
End Lost.

(** The target of a link is dropped with the brackets, the text of the
    link is kept; text around a fenced block or a link is kept. *)
Remark around_blocks_and_links :
  StreamingHandler.cleanForVoice (Js.units "see [docs](u) now")
  = Js.units "see docs now"
  ∧ StreamingHandler.cleanForVoice (Js.units "Hello ```x``` world")
    = Js.units "Hello world".
Proof. split; by vm_compute. Qed.

(** The target of a link holds content characters, and they are gone
    from the output. *)
Remark link_target_dropped :
  filter Voice.content (Js.units "[a](bc)") = Js.units "[a](bc)"
  ∧ StreamingHandler.cleanForVoice (Js.units "[a](bc)") = Js.units "a"
  ∧ ¬ filter Voice.content (Js.units "[a](bc)")
      `sublist_of` StreamingHandler.cleanForVoice (Js.units "[a](bc)").
Proof.
  split; [by vm_compute |]. split; [by vm_compute |].
  replace (StreamingHandler.cleanForVoice (Js.units "[a](bc)"))
    with [97%N] by (by vm_compute).
  replace (filter Voice.content (Js.units "[a](bc)"))
    with [91; 97; 93; 40; 98; 99; 41]%N by (by vm_compute).
  intros H. apply sublist_length in H. simpl in H. lia.
Qed.

(** C7, amended.  The normalizer loses content characters (characters
    that are neither white space nor one of the stripped or replaced
    symbols) in two places only, for every input.  The emphasis passes
    remove exactly the asterisks.  The code-block pass, reading left to
    right, deletes every fenced code block, from a fence to the first
    fence behind it, whole with its text, and copies everything else:
    its output is the one text obtained in that way.  The inline-code
    and header passes keep every content character, in order.  The link
    pass, reading left to right, replaces every link by its text, which
    drops the brackets and the target, and copies everything else: its
    output is the one text obtained in that way.  The remaining passes
    keep every content character, in order, up to the output. *)
Theorem cleanForVoice_loses_blocks_and_targets_only (t : Js.str) :
  Voice.beforeCodeBlocks t = filter (fun c => c ≠ StreamingHandler.star) t
  ∧ (∀ b, Rewriting.Replaced Rewriting.fencedBlock (Voice.beforeCodeBlocks t) b
          ↔ b = Js.gsub StreamingHandler.code_block (Voice.beforeCodeBlocks t))
  ∧ filter Voice.content
      (Js.gsub StreamingHandler.code_block (Voice.beforeCodeBlocks t))
    `sublist_of` filter Voice.content (Voice.beforeLinks t)
  ∧ (∀ b, Rewriting.Replaced Rewriting.linkToText (Voice.beforeLinks t) b
          ↔ b = Js.gsub StreamingHandler.link (Voice.beforeLinks t))
  ∧ filter Voice.content (Js.gsub StreamingHandler.link (Voice.beforeLinks t))
    `sublist_of` StreamingHandler.cleanForVoice t.
Proof.
  split; [apply beforeCodeBlocks_filter |].
  split; [intros b; apply Replaced_iff, code_block_stands_for |].
  split.
  { unfold Voice.beforeLinks.
    apply gsub_step; [apply header_keeps |].
    apply gsub_step; [apply inline_code_keeps | reflexivity]. }
  split; [intros b; apply Replaced_iff, link_stands_for |].
  apply after_links_kept.
Qed.

(** ** Router: overlapping handlers *)

Section KeptByTicks.
Import SessionManager MessageHandler Router.

Lemma promptBegin_wellKept (p : string) (w : World) :
  wellKept (sessions w) → wellKept (sessions (promptBegin p w).1).
Proof.
  intros Hw. unfold promptBegin.
  destruct (truthy (wsCallSid w)) as [sid |]; [| exact Hw].
  destruct (getSession sid (sessions w)); [| exact Hw].
  simpl. by apply addMessage_wellKept.
Qed.

Lemma promptSettle_wellKept config outcome (w : World) :
  wellKept (sessions w) → wellKept (sessions (promptSettle config outcome w).1).
Proof.
  intros Hw. destruct outcome as [response |]; [| exact Hw].
  simpl. destruct (wsCallSid w); [by apply addMessage_wellKept | exact Hw].
Qed.

Lemma tick_wellKept config complete (t : Tick) (w : World) (pending : list Call) :
  wellKept (sessions w) →
  wellKept (sessions (tick config complete t w pending).1.1).
Proof.
  intros Hw. destruct t as [now message | i | i]; cbn [tick].
  - assert (Hother : ∀ m,
              wellKept (sessions
                (let '(w', reply) := handleMessage config complete now m w in
                 (w', pending, reply)).1.1)).
    { intros m. pose proof (handleMessage_wellKept config complete now m w Hw) as H.
      destruct (handleMessage config complete now m w). exact H. }
    destruct message as [sid f t | p | | d | | e |]; try apply Hother.
    pose proof (promptBegin_wellKept p w Hw) as H.
    destruct (promptBegin p w) as [w' [h |]]; exact H.
  - destruct (pending !! i) as [call |]; [| exact Hw].
    pose proof (promptSettle_wellKept config
                  (Resolved (LlamaService.generateResponse (systemPrompt config)
                               complete (asked call) (sent call))) w Hw) as H.
    destruct (promptSettle _ _ w). exact H.
  - destruct (pending !! i) as [call |]; [| exact Hw].
    pose proof (promptSettle_wellKept config Rejected w Hw) as H.
    destruct (promptSettle _ _ w). exact H.
Qed.

Lemma ticks_wellKept config complete (ts : list Tick) :
  ∀ (w : World) (pending : list Call),
    wellKept (sessions w) →
    wellKept (sessions (ticks config complete ts w pending).1.1).
Proof.
  induction ts as [| t ts IH]; intros w pending Hw; [exact Hw |].
  cbn [ticks].
  pose proof (tick_wellKept config complete t w pending Hw) as Hstep.
  destruct (tick config complete t w pending) as [[w' pending'] reply].
  specialize (IH w' pending' Hstep).
  destruct (ticks config complete ts w' pending') as [[w'' pending''] replies].
  exact IH.
Qed.


End KeptByTicks.

(** X27.  The registry stays in order also when handlers overlap:
    whatever events arrive and whatever pending backend calls resolve or
    are rejected, in whatever order, every session is stored under its
    own call identifier and no history is longer than 20 entries. *)
Theorem registry_kept_by_ticks (config : MessageHandler.Config)
    (complete : list Message -> LlamaService.Completion)
    (ts : list Router.Tick) (w : MessageHandler.World)
    (pending : list Router.Call) :
  Router.wellKept (MessageHandler.sessions w) →
  Router.wellKept
    (MessageHandler.sessions (Router.ticks config complete ts w pending).1.1).
Proof. apply ticks_wellKept. Qed.

Lemma registry_kept_by_ticks_witness :
  Router.wellKept
    (MessageHandler.sessions
       (Router.ticks exampleConfig exampleBackend
          [Router.Arrives 1 (MessageHandler.SetupMessage "CA1" "+1" "+2");
           Router.Arrives 2 (MessageHandler.PromptMessage "hi");
           Router.Arrives 3 (MessageHandler.PromptMessage "hello?");
           Router.Answers 1;
           Router.Answers 0] idleWorld []).1.1).
Proof.
  apply (registry_kept_by_ticks exampleConfig exampleBackend
           [Router.Arrives 1 (MessageHandler.SetupMessage "CA1" "+1" "+2");
            Router.Arrives 2 (MessageHandler.PromptMessage "hi");
            Router.Arrives 3 (MessageHandler.PromptMessage "hello?");
            Router.Answers 1;
            Router.Answers 0] idleWorld []).
  apply map_Forall_empty.
Defined.

